(** * The genvm state-transition engine of go-spacemesh

    A shallow embedding of package [vm] (validation requests, [parse],
    [Apply], [ApplyGenesis]) and of the parts of package [core] it relies
    on, of the wire format of [types.LayerID], and of the connections of
    package [net], followed by their properties.

    Conventions.
    - Go's [(value, error)] returns are values of [result]; a run-time
      panic is the [Panic] case of [outcome].
    - The logger is a writer: every computation of [M] yields the log
      entries it emitted next to its outcome.
    - Interface values ([core.Handler], [core.Template], [scale.Encodable])
      are values of abstract types; their method tables are the fields of
      the class [Collaborators], together with the go-scale decoders and
      the template registry. *)

From Stdlib Require Import NArith List String.
From stdpp Require Import gmap strings list fin_maps.

Local Open Scope N_scope.

(** ** Basic data *)

Definition bytes : Type := list Byte.byte.
Definition uint8 : Type := N.
Definition uint32 : Type := N.
Definition uint64 : Type := N.

(** [types.Address]: a fixed-size byte array, kept as its numeric value. *)
Definition Address : Type := N.

(** [types.LayerID], a struct with the single field [Value uint32]. *)
Record LayerID := { Value : uint32 }.

(** [types.Nonce]; only [Counter] is read by the engine. *)
Record Nonce := { Counter : uint64 }.

(** Modelled from the spec: [types.Account] is declared outside the given
    sources. Section 3 of the specification lists its fields: address,
    balance, nonce counter, optional template address, opaque state blob
    and last-updated layer. [account.Template] is a pointer that may be
    nil, hence the option. *)
Record Account := {
  Layer : LayerID;
  Addr : Address;
  Balance : uint64;
  NonceCounter : uint64;
  Template : option Address;
  State : bytes;
}.

(** Modelled from the spec: [Account.NextNonce()] is the account's current
    nonce counter, the value a transaction nonce is compared with. *)
Definition NextNonce (a : Account) : uint64 := NonceCounter a.

(** [account.Layer = lid] *)
Definition set_Layer (lid : LayerID) (a : Account) : Account :=
  {| Layer := lid; Addr := Addr a; Balance := Balance a;
     NonceCounter := NonceCounter a; Template := Template a;
     State := State a |}.

(** Modelled from the spec: [types.TxHeader] is declared outside the given
    sources; the specification names principal, method selector, nonce and
    computed max-spend. *)
Record Header := {
  Principal : Address;
  HMethod : uint8;
  HNonce : Nonce;
  MaxSpend : uint64;
}.

Definition set_Principal (p : Address) (h : Header) : Header :=
  {| Principal := p; HMethod := HMethod h; HNonce := HNonce h;
     MaxSpend := MaxSpend h |}.

Definition set_MaxSpend (m : uint64) (h : Header) : Header :=
  {| Principal := Principal h; HMethod := HMethod h; HNonce := HNonce h;
     MaxSpend := m |}.

(** The zero value of a [Header]. *)
Definition zero_Header : Header :=
  {| Principal := 0; HMethod := 0; HNonce := {| Counter := 0 |};
     MaxSpend := 0 |}.

(** ** Errors (package core, errors.go) *)

(** The package-level error values; each [errors.New] call yields a value
    with its own identity. *)
Inductive sentinel :=
| SInternal | SMalformed | SInvalidNonce | SNoBalance | SMaxGas
| SMaxSpend | SSpawned | SNotSpawned | SAuth.

#[export] Instance sentinel_eq_dec : EqDecision sentinel.
Proof. solve_decision. Defined.

Inductive fmt_arg :=
| ArgAddr (a : Address)
| ArgUint (n : N)
| ArgStr (s : string).

(** An error value: one of the package-level values, or an error built
    where it is returned: [Errorf] by [errors.New] (no arguments) or by
    [fmt.Errorf] with a format without [%w]; [Wrapf] by [fmt.Errorf] with a
    [%w] that wraps [inner]. *)
Inductive error :=
| Sentinel (s : sentinel)
| Errorf (format : string) (args : list fmt_arg)
| Wrapf (format : string) (args : list fmt_arg) (inner : error).

Definition ErrInternal : error := Sentinel SInternal.
Definition ErrMalformed : error := Sentinel SMalformed.
Definition ErrInvalidNonce : error := Sentinel SInvalidNonce.
Definition ErrNoBalance : error := Sentinel SNoBalance.
Definition ErrMaxGas : error := Sentinel SMaxGas.
Definition ErrMaxSpend : error := Sentinel SMaxSpend.
Definition ErrSpawned : error := Sentinel SSpawned.
Definition ErrNotSpawned : error := Sentinel SNotSpawned.
Definition ErrAuth : error := Sentinel SAuth.

(** [errors.Is(err, target)] for a package-level [target]: walk the chain
    of wrapped errors and compare identities. *)
Fixpoint errors_Is (err : error) (target : sentinel) : bool :=
  match err with
  | Sentinel s => bool_decide (s = target)
  | Errorf _ _ => false
  | Wrapf _ _ inner => errors_Is inner target
  end.

(** [err.Error()], as far as the engine formats it: the text of the
    outermost layer. *)
Definition sentinel_text (s : sentinel) : string :=
  match s with
  | SInternal => "internal"
  | SMalformed => "malformed tx"
  | SInvalidNonce => "invalid nonce"
  | SNoBalance => "no balance"
  | SMaxGas => "max gas"
  | SMaxSpend => "max spend"
  | SSpawned => "account already spawned"
  | SNotSpawned => "account is not spawned"
  | SAuth => "failed authorization"
  end.

Definition error_text (e : error) : string :=
  match e with
  | Sentinel s => sentinel_text s
  | Errorf format _ => format
  | Wrapf format _ _ => format
  end.

(** [fmt.Errorf("%w: %s", core.ErrInternal, err.Error())] *)
Definition wrap_internal (err : error) : error :=
  Wrapf "%w: %s" [ArgStr (error_text err)] ErrInternal.

(** ** Results, panics and the logger *)

Inductive result (A : Type) :=
| Ok (a : A)
| Err (e : error).
Arguments Ok {A} a.
Arguments Err {A} e.

Inductive outcome (A : Type) :=
| Ret (a : A)
| Panic (msg : string).
Arguments Ret {A} a.
Arguments Panic {A} msg.

Definition nil_dereference : string :=
  "runtime error: invalid memory address or nil pointer dereference".

Inductive level := Debug | Info | Warning.

Inductive field :=
| FErr (e : error)
| FUint64 (name : string) (n : uint64)
| FInt (name : string) (n : Z)
| FAccount (a : Account)
| FLayer (lid : LayerID)
| FDuration (name : string).

Record LogEntry := { lvl : level; text : string; fields : list field }.

Definition M (A : Type) : Type := list LogEntry * outcome A.

Definition ret {A} (a : A) : M A := ([], Ret a).
Definition panic {A} (msg : string) : M A := ([], Panic msg).
Definition emit (l : level) (msg : string) (fs : list field) : M unit :=
  ([ {| lvl := l; text := msg; fields := fs |} ], Ret tt).

Definition bind {A B} (m : M A) (k : A -> M B) : M B :=
  match m with
  | (l, Ret a) => let '(l', r) := k a in (l ++ l', r)
  | (l, Panic msg) => (l, Panic msg)
  end.

Declare Scope vm_scope.
Delimit Scope vm_scope with vm.
Notation "x <- m ;; k" := (bind m (fun x => k))
  (at level 100, m at next level, right associativity) : vm_scope.
Notation "m ;;; k" := (bind m (fun _ => k))
  (at level 100, right associativity) : vm_scope.
Local Open Scope vm_scope.

(** [scale.Decoder] over a byte reader: the bytes not yet consumed. *)
Definition Decoder : Type := bytes.

(** [core.AccountLoader]: the [Get] method of the value behind the
    interface. *)
Definition AccountLoader : Type := Address -> result Account.

(** ** The account store (packages sql and sql/accounts) *)

(** Modelled from the spec: the persistence engine is outside the given
    sources. The specification describes a transactional key-value
    account store keyed by address that holds one record per address,
    with get, update and commit; writes made inside a store transaction
    are visible to readers only once it is committed, and a released
    transaction that was not committed leaves no trace. Any operation can
    fail (store unavailable): the four fault fields say which ones do. *)
Record Database := {
  rows : gmap Address Account;
  begin_fault : option error;
  read_fault : Address -> option error;
  write_fault : Account -> option error;
  commit_fault : option error;
}.

(** Modelled from the spec: a store transaction ([sql.Tx]), as the
    database it was opened on and the records written through it so far,
    oldest first. *)
Record Tx := { tx_db : Database; pending : list Account }.

(** Modelled from the spec: the store holds one record per address, so
    writing a record replaces the one stored for its address. *)
Definition write_row (m : gmap Address Account) (a : Account)
  : gmap Address Account := <[Addr a := a]> m.

(** Modelled from the spec: the rows as seen from inside the transaction,
    the committed ones overwritten by the pending writes in order. *)
Definition tx_rows (tx : Tx) : gmap Address Account :=
  foldl write_row (rows (tx_db tx)) (pending tx).

(** Modelled from the spec: [db.Tx(ctx)] opens a store transaction, or
    fails when the store is unavailable. *)
Definition Database_Tx (db : Database) : result Tx :=
  match begin_fault db with
  | Some err => Err err
  | None => Ok {| tx_db := db; pending := [] |}
  end.

(** Modelled from the spec: an address without a record reads as an
    account that was never spawned (a spawn for a fresh address loads its
    principal before anything was stored for it). *)
Definition empty_Account (address : Address) : Account :=
  {| Layer := {| Value := 0 |}; Addr := address; Balance := 0;
     NonceCounter := 0; Template := None; State := [] |}.

(** Modelled from the spec: get-by-address ([accounts.Latest]) on a view
    of the rows; it fails when the store is unavailable. *)
Definition Latest_in (db : Database) (view : gmap Address Account)
    (address : Address) : result Account :=
  match read_fault db address with
  | Some err => Err err
  | None => Ok (default (empty_Account address) (view !! address))
  end.

(** Modelled from the spec: [accounts.Latest(db, address)] on the
    database. *)
Definition Database_Latest (db : Database) : AccountLoader :=
  Latest_in db (rows db).

(** Modelled from the spec: [accounts.Latest(tx, address)] inside a
    transaction. *)
Definition Tx_Latest (tx : Tx) : AccountLoader :=
  Latest_in (tx_db tx) (tx_rows tx).

(** Modelled from the spec: [accounts.Update(tx, account)], the update
    primitive of the store; a failed write leaves the transaction as it
    was. *)
Definition accounts_Update (tx : Tx) (account : Account)
  : option error * Tx :=
  match write_fault (tx_db tx) account with
  | Some err => (Some err, tx)
  | None => (None, {| tx_db := tx_db tx; pending := pending tx ++ [account] |})
  end.

(** Modelled from the spec: [tx.Commit()] makes the pending writes
    visible; it returns the error, if any, and the database afterwards. *)
Definition Tx_Commit (tx : Tx) : option error * Database :=
  match commit_fault (tx_db tx) with
  | Some err => (Some err, tx_db tx)
  | None =>
      (None,
       {| rows := tx_rows tx;
          begin_fault := begin_fault (tx_db tx);
          read_fault := read_fault (tx_db tx);
          write_fault := write_fault (tx_db tx);
          commit_fault := commit_fault (tx_db tx) |})
  end.

(** ** Staged state (package core) *)

(** Modelled from the spec: [core.StagedState] is outside the given
    sources. It is a write-buffering overlay over the account store scoped
    to one batch: a mapping from address to the pending account record,
    read before the store is, which can iterate over the changed records
    for the final flush. [changed] keeps them in the order in which they
    were first written. *)
Record StagedState := { ss_loader : AccountLoader; changed : list Account }.

(** Modelled from the spec: [core.NewStagedState(db)], an empty overlay
    over the store reader [db]. *)
Definition NewStagedState (loader : AccountLoader) : StagedState :=
  {| ss_loader := loader; changed := [] |}.

(** Modelled from the spec: [StagedState.Get], the pending record of the
    address if there is one, else the record of the store. *)
Definition StagedState_Get (ss : StagedState) : AccountLoader :=
  fun address =>
    match List.find (fun a => Addr a =? address) (changed ss) with
    | Some a => Ok a
    | None => ss_loader ss address
    end.

(** Modelled from the spec: one pending record per address; a later
    write for an address replaces the earlier one in place. *)
Fixpoint upsert (account : Account) (l : list Account) : list Account :=
  match l with
  | [] => [account]
  | a :: l' =>
      if Addr a =? Addr account then account :: l' else a :: upsert account l'
  end.

(** Modelled from the spec: [StagedState.Update], the
    [core.AccountUpdater] of the staged state; it buffers the record in
    memory. *)
Definition StagedState_Update (ss : StagedState) (account : Account)
  : option error * StagedState :=
  (None, {| ss_loader := ss_loader ss;
            changed := upsert account (changed ss) |}).

(** Modelled from the spec: the iteration behind [ss.IterateChanged(f)].
    It calls [f] on a pointer to every changed account until [f] returns
    false. The callback may write to the account and to the variables it
    captured, of type [S]. *)
Fixpoint iterate_accounts {S} (f : Account -> S -> M (bool * Account * S))
    (accounts : list Account) (s : S) : M (list Account * S) :=
  match accounts with
  | [] => ret ([], s)
  | a :: rest =>
      r <- f a s ;;
      let '(continue, a, s) := r in
      if (continue : bool) then
        r <- iterate_accounts f rest s ;;
        ret (a :: fst r, snd r)
      else ret (a :: rest, s)
  end.

(** Modelled from the spec: [ss.IterateChanged(f)], "iterate every
    account with pending mutations in the Staged State". *)
Definition StagedState_IterateChanged {S}
    (f : Account -> S -> M (bool * Account * S)) (ss : StagedState) (s : S)
  : M (StagedState * S) :=
  r <- iterate_accounts f (changed ss) s ;;
  ret ({| ss_loader := ss_loader ss; changed := fst r |}, snd r).

(** ** Execution context and collaborators (package core) *)

Section Engine.

(** The dynamic types behind [scale.Encodable] (decoded arguments),
    [core.Handler] and [core.Template]. *)
Context {Args HandlerT TemplateT : Type}.

(** Modelled from the spec: [core.Context] is declared outside the given
    sources. The fields are those [parse] fills in and section 3 of the
    specification lists; [Touched] holds the other accounts an execution
    has modified, the rest of the "accumulated mutation" flushed by
    [Context.Apply]. [Header] is held by value. *)
Record Context := {
  Loader : AccountLoader;
  Handler : HandlerT;
  CtxTemplate : option TemplateT;
  CtxAccount : Account;
  CtxPrincipal : Address;
  Method : uint8;
  CtxHeader : Header;
  CtxArgs : option Args;
  Touched : list Account;
}.

Definition set_Args (a : Args) (c : Context) : Context :=
  {| Loader := Loader c; Handler := Handler c; CtxTemplate := CtxTemplate c;
     CtxAccount := CtxAccount c; CtxPrincipal := CtxPrincipal c;
     Method := Method c; CtxHeader := CtxHeader c; CtxArgs := Some a;
     Touched := Touched c |}.

Definition set_Header (h : Header) (c : Context) : Context :=
  {| Loader := Loader c; Handler := Handler c; CtxTemplate := CtxTemplate c;
     CtxAccount := CtxAccount c; CtxPrincipal := CtxPrincipal c;
     Method := Method c; CtxHeader := h; CtxArgs := CtxArgs c;
     Touched := Touched c |}.

Definition set_Template (t : TemplateT) (c : Context) : Context :=
  {| Loader := Loader c; Handler := Handler c; CtxTemplate := Some t;
     CtxAccount := CtxAccount c; CtxPrincipal := CtxPrincipal c;
     Method := Method c; CtxHeader := CtxHeader c; CtxArgs := CtxArgs c;
     Touched := Touched c |}.

(** What the engine calls but does not define: the go-scale decoders, the
    template registry, and the methods of the two interfaces of
    package core (a method receives the dynamic value as first argument;
    a method with a [*Context] receiver that may write to it returns the
    context it leaves behind). *)
Class Collaborators := {
  DecodeCompact8 : Decoder -> result uint8 * Decoder;
  DecodeAddress : Decoder -> result Address * Decoder;
  registry_Get : Address -> option HandlerT;
  Handler_Parse :
    HandlerT -> Context -> uint8 -> Decoder -> result (Header * Args) * Decoder;
  Handler_Init : HandlerT -> uint8 -> Args -> bytes -> result TemplateT;
  Handler_Exec : HandlerT -> Context -> uint8 -> Args -> Context * option error;
  Template_MaxSpend : TemplateT -> uint8 -> Args -> result uint64;
  Template_Verify : TemplateT -> Context -> bytes -> bool;
}.

Context {E : Collaborators}.

(** ** parse (package vm) *)

Definition parse (loader : AccountLoader) (decoder : Decoder)
  : M (result (Header * Context * Args) * Decoder) :=
  let '(version, decoder) := DecodeCompact8 decoder in
  match version with
  | Err err => ret (Err err, decoder)
  | Ok version =>
  if negb (version =? 0) then
    ret (Err (Errorf "unsupported version %d" [ArgUint version]), decoder)
  else
  let '(principal, decoder) := DecodeAddress decoder in
  match principal with
  | Err err =>
      ret (Err (Wrapf "failed to decode principal: %w" [] err), decoder)
  | Ok principal =>
  let '(method, decoder) := DecodeCompact8 decoder in
  match method with
  | Err err =>
      ret (Err (Wrapf "failed to decode method selector: %w" [] err),
           decoder)
  | Ok method =>
  match loader principal with
  | Err err =>
      ret (Err (Wrapf "failed to load state for principal %s: %w"
                  [ArgAddr principal] err), decoder)
  | Ok account =>
  emit Debug "loaded account state" [FAccount account] ;;;
  let '(template, decoder) :=
    if method =? 0 then
      match DecodeAddress decoder with
      | (Err err, decoder) =>
          (Err (Wrapf "failed to decode template address %w" [] err),
           decoder)
      | (Ok t, decoder) => (Ok (Some t), decoder)
      end
    else (Ok (Template account), decoder) in
  match template with
  | Err err => ret (Err err, decoder)
  | Ok None => ret (Err (Errorf "account is not spawned" []), decoder)
  | Ok (Some template) =>
  match registry_Get template with
  | None =>
      (* the argument [*account.Template] is evaluated first *)
      match Template account with
      | None => panic nil_dereference
      | Some recorded =>
          ret (Err (Errorf "unknown template %x" [ArgAddr recorded]),
               decoder)
      end
  | Some handler =>
  let ctx := {| Loader := loader; Handler := handler; CtxTemplate := None;
                CtxAccount := account; CtxPrincipal := principal;
                Method := method; CtxHeader := zero_Header; CtxArgs := None;
                Touched := [] |} in
  let '(parsed, decoder) := Handler_Parse handler ctx method decoder in
  match parsed with
  | Err err => ret (Err err, decoder)
  | Ok (header, args) =>
  let header := set_Principal principal header in
  let ctx := set_Header header (set_Args args ctx) in
  match Handler_Init handler method args (State account) with
  | Err err => ret (Err err, decoder)
  | Ok template =>
  let ctx := set_Template template ctx in
  match Template_MaxSpend template (Method ctx) args with
  | Err err => ret (Err err, decoder)
  | Ok maxspend =>
  let header := set_MaxSpend maxspend header in
  ret (Ok (header, ctx, args), decoder)
  end end end end end end end end end.

(** [verify] *)
Definition verify (ctx : Context) (raw : bytes) : outcome bool :=
  match CtxTemplate ctx with
  | None => Panic nil_dereference
  | Some t => Ret (Template_Verify t ctx raw)
  end.

(** Modelled from the spec: the updates that [Context.Apply] makes, one
    per account, stopping at the first that fails. *)
Fixpoint update_all (ss : StagedState) (accounts : list Account)
  : option error * StagedState :=
  match accounts with
  | [] => (None, ss)
  | a :: rest =>
      match StagedState_Update ss a with
      | (Some err, ss) => (Some err, ss)
      | (None, ss) => update_all ss rest
      end
  end.

(** Modelled from the spec: [Context.Apply(updater)] is outside the given
    sources; it flushes the context's accumulated mutation, the principal's
    account and the other accounts touched, into the updater. *)
Definition Context_Apply (ctx : Context) (ss : StagedState)
  : option error * StagedState :=
  update_all ss (CtxAccount ctx :: Touched ctx).

(** ** VM (package vm) *)

(** [VM]: the database behind the [db] pointer. The logger is the writer
    of [M]. *)
Record VM := { db : Database }.

(** [GetNonce] *)
Definition GetNonce (vm : VM) (address : Address) : result Nonce :=
  match Database_Latest (db vm) address with
  | Err err => Err err
  | Ok account => Ok {| Counter := NextNonce account |}
  end.

(** [ApplyGenesis]: the loop over [genesis], then the commit. The result
    pairs the returned error with the database that a committed
    transaction leaves ([None] when nothing was committed and the deferred
    [tx.Release()] drops the pending writes). *)
Fixpoint genesis_loop (tx : Tx) (genesis : list Account)
  : M (option error * option Database) :=
  match genesis with
  | [] =>
      match Tx_Commit tx with
      | (Some err, _) => ret (Some err, None)
      | (None, db') => ret (None, Some db')
      end
  | account :: rest =>
      emit Info "genesis account" [FAccount account] ;;;
      match accounts_Update tx account with
      | (Some err, _) =>
          ret (Some (Wrapf "inserting genesis account %w" [] err), None)
      | (None, tx) => genesis_loop tx rest
      end
  end.

Definition after_release {A} (vm : VM) (run : M (A * option Database)) : VM :=
  match snd run with
  | Ret (_, Some db') => {| db := db' |}
  | _ => vm
  end.

Definition ApplyGenesis (vm : VM) (genesis : list Account)
  : M (option error) * VM :=
  match Database_Tx (db vm) with
  | Err err => (ret (Some err), vm)
  | Ok tx =>
      let run := genesis_loop tx genesis in
      (r <- run ;; ret (fst r), after_release vm run)
  end.

(** [Apply]. One iteration of the loop over [txs] either goes on with the
    next transaction, with the staged state and the skipped list it
    leaves, or makes [Apply] return an error. *)
Inductive step :=
| Next (ss : StagedState) (skipped : list bytes)
| Return (err : error).

Definition apply_tx (ss : StagedState) (skipped : list bytes) (tx : bytes)
  : M step :=
  (* rd.Reset(tx) *)
  r <- parse (StagedState_Get ss) tx ;;
  match fst r with
  | Err err =>
      emit Warning "skipping transaction. failed to parse" [FErr err] ;;;
      ret (Next ss (skipped ++ [tx]))
  | Ok (_, ctx, args) =>
      if negb (NextNonce (CtxAccount ctx) =? Counter (HNonce (CtxHeader ctx)))
      then
        emit Warning "skipping transaction. failed nonce check"
          [FUint64 "account nonce" (NextNonce (CtxAccount ctx));
           FUint64 "tx nonce" (Counter (HNonce (CtxHeader ctx)))] ;;;
        ret (Next ss (skipped ++ [tx]))
      else
        let '(ctx, failure) := Handler_Exec (Handler ctx) ctx (Method ctx) args in
        internal <- match failure with
                    | Some err =>
                        emit Debug "transaction execution failed" [FErr err] ;;;
                        ret (if errors_Is err SInternal then Some err else None)
                    | None => ret None
                    end ;;
        match internal with
        | Some err => ret (Return err)
        | None =>
            match Context_Apply ctx ss with
            | (Some err, _) => ret (Return (wrap_internal err))
            | (None, ss) => ret (Next ss skipped)
            end
        end
  end.

Fixpoint apply_loop (ss : StagedState) (skipped : list bytes)
    (txs : list bytes) : M step :=
  match txs with
  | [] => ret (Next ss skipped)
  | tx :: rest =>
      s <- apply_tx ss skipped tx ;;
      match s with
      | Next ss skipped => apply_loop ss skipped rest
      | Return err => ret (Return err)
      end
  end.

(** The callback given to [IterateChanged]; it captures [tx] and [err]. *)
Definition flush_account (lid : LayerID) (account : Account)
    (captured : Tx * option error) : M (bool * Account * (Tx * option error)) :=
  let account := set_Layer lid account in
  emit Debug "update account state" [FAccount account] ;;;
  let '(err, tx) := accounts_Update (fst captured) account in
  ret (match err with None => true | Some _ => false end, account, (tx, err)).

(** After the loop: flush the changed accounts, commit, report. *)
Definition Apply_flush (tx : Tx) (lid : LayerID) (txs : list bytes) (s : step)
  : M (result (list bytes) * option Database) :=
  match s with
  | Return err => ret (Err err, None)
  | Next ss skipped =>
      r <- StagedState_IterateChanged (flush_account lid) ss (tx, None) ;;
      let '(tx, err) := snd r in
      match err with
      | Some err => ret (Err (wrap_internal err), None)
      | None =>
          match Tx_Commit tx with
          | (Some err, _) => ret (Err (wrap_internal err), None)
          | (None, db') =>
              emit Info "applied transactions"
                [FLayer lid;
                 FInt "count" (Z.of_nat (length txs) - Z.of_nat (length skipped));
                 FDuration "duration"] ;;;
              ret (Ok skipped, Some db')
          end
      end
  end.

(** The body of [Apply] between [vm.db.Tx] and the deferred
    [tx.Release()]: the returned values, and the database a commit left
    ([None] when the transaction is released without one). *)
Definition Apply_body (tx : Tx) (lid : LayerID) (txs : list bytes)
  : M (result (list bytes) * option Database) :=
  let ss := NewStagedState (Tx_Latest tx) in
  s <- apply_loop ss [] txs ;;
  Apply_flush tx lid txs s.

Definition Apply (vm : VM) (lid : LayerID) (txs : list bytes)
  : M (result (list bytes)) * VM :=
  match Database_Tx (db vm) with
  | Err err => (ret (Err err), vm)
  | Ok tx =>
      let run := Apply_body tx lid txs in
      (r <- run ;; ret (fst r), after_release vm run)
  end.

(** ** Validation requests *)

Record Request := {
  vm : VM;
  raw : bytes;
  ctx : option Context;
  decoder : Decoder;
}.

(** [Validation] *)
Definition Validation (vm : VM) (raw : bytes) : Request :=
  {| vm := vm; decoder := raw; raw := raw; ctx := None |}.

(** [Request.Parse]: the returned header or error, and the request as the
    call leaves it ([r.ctx] is assigned on success only; the decoder has
    advanced in both cases). *)
Definition Request_Parse (r : Request) : M (result Header * Request) :=
  p <- parse (StagedState_Get (NewStagedState (Database_Latest (db (vm r)))))
         (decoder r) ;;
  match p with
  | (Err err, decoder) =>
      ret (Err err,
           {| vm := vm r; raw := raw r; ctx := ctx r; decoder := decoder |})
  | (Ok (header, ctx, _), decoder) =>
      ret (Ok header,
           {| vm := vm r; raw := raw r; ctx := Some ctx; decoder := decoder |})
  end.

(** [Request.Verify] *)
Definition Request_Verify (r : Request) : outcome bool :=
  match ctx r with
  | None => Panic "Verify should be called after succesfull Parse"
  | Some ctx => verify ctx (raw r)
  end.

End Engine.

(** ** Notions used to state the properties *)

(** Changing the result of a computation, keeping its log. *)
Definition fmap_M {A B} (f : A -> B) (m : M A) : M B :=
  (fst m, match snd m with Ret a => Ret (f a) | Panic msg => Panic msg end).

(** The database a run of [Apply] or [ApplyGenesis] committed, if any. *)
Definition committed {A} (run : M (A * option Database)) : option Database :=
  match snd run with
  | Ret (_, o) => o
  | Panic _ => None
  end.

(** The transaction [vm.db.Tx] opens. *)
Definition opened (vm : VM) : Tx := {| tx_db := db vm; pending := [] |}.

Definition prepend (skipped : list bytes) (s : step) : step :=
  match s with
  | Next ss skipped' => Next ss (skipped ++ skipped')
  | Return err => Return err
  end.

Section Notions.

Context {Args HandlerT TemplateT : Type}.
Context {E : @Collaborators Args HandlerT TemplateT}.

(** What happens to one transaction of a batch, given the staged state
    the batch has reached: it fails parsing, fails the nonce check, is
    executed with an error or without one, or parsing crashes. *)
Inductive verdict :=
| ParseFailed (err : error)
| NonceMismatch
| ExecFailed (err : error)
| Executed
| Crashed.

Definition verdict_of (ss : StagedState) (tx : bytes) : verdict :=
  match snd (parse (StagedState_Get ss) tx) with
  | Panic _ => Crashed
  | Ret (Err err, _) => ParseFailed err
  | Ret (Ok (_, ctx, args), _) =>
      if NextNonce (CtxAccount ctx) =? Counter (HNonce (CtxHeader ctx)) then
        match snd (Handler_Exec (Handler ctx) ctx (Method ctx) args) with
        | Some err => ExecFailed err
        | None => Executed
        end
      else NonceMismatch
  end.

Definition is_skipped (v : verdict) : bool :=
  match v with
  | ParseFailed _ | NonceMismatch => true
  | _ => false
  end.

(** The staged state with which the loop goes on after [tx], if it does. *)
Definition staged_after (ss : StagedState) (tx : bytes) : option StagedState :=
  match snd (apply_tx ss [] tx) with
  | Ret (Next ss' _) => Some ss'
  | _ => None
  end.

(** The verdicts of the transactions of a batch, in order, up to the
    first one after which the loop does not go on. *)
Fixpoint batch_verdicts (ss : StagedState) (txs : list bytes) : list verdict :=
  match txs with
  | [] => []
  | tx :: rest =>
      verdict_of ss tx ::
      match staged_after ss tx with
      | Some ss' => batch_verdicts ss' rest
      | None => []
      end
  end.

(** The transactions whose verdict is a failed parse or a failed nonce
    check, in the order of the batch. *)
Definition skipped_of (ss : StagedState) (txs : list bytes) : list bytes :=
  map fst (filter (fun p => is_skipped (snd p)) (zip txs (batch_verdicts ss txs))).

(** The same collaborators with another [Exec]. *)
Definition with_Exec
    (exec : HandlerT -> Context -> uint8 -> Args -> Context * option error)
  : @Collaborators Args HandlerT TemplateT :=
  {| DecodeCompact8 := DecodeCompact8;
     DecodeAddress := DecodeAddress;
     registry_Get := registry_Get;
     Handler_Parse := Handler_Parse;
     Handler_Init := Handler_Init;
     Handler_Exec := exec;
     Template_MaxSpend := Template_MaxSpend;
     Template_Verify := Template_Verify |}.

(** Requests on which no [Parse] has completed successfully: a request
    fresh from [Validation], or one on which [Parse] returned an error. *)
Inductive unparsed : Request -> Prop :=
| unparsed_fresh vm raw : unparsed (Validation vm raw)
| unparsed_failed r log err r' :
    unparsed r ->
    Request_Parse r = (log, Ret (Err err, r')) ->
    unparsed r'.

(** The reading of "the effects of a transaction whose execution failed
    are discarded" for one transaction: when [Exec] fails on it without an
    internal error, the loop goes on with the staged state it had. *)
Definition discards_failed_execution (ss : StagedState) (tx : bytes) : Prop :=
  forall err,
    verdict_of ss tx = ExecFailed err ->
    errors_Is err SInternal = false ->
    option_map changed (staged_after ss tx) = Some (changed ss).

(** The log entry of a failed execution. *)
Definition execution_failed (err : error) : LogEntry :=
  {| lvl := Debug; text := "transaction execution failed";
     fields := [FErr err] |}.

(** The log entry of a failed nonce check. *)
Definition nonce_check_failed (account tx : uint64) : LogEntry :=
  {| lvl := Warning; text := "skipping transaction. failed nonce check";
     fields := [FUint64 "account nonce" account; FUint64 "tx nonce" tx] |}.

End Notions.

(** ** A small instance of the collaborators

    It is used to run the engine on concrete inputs: the codec spends one
    byte per compact8 value and per address, the registry knows the single
    template address 1, whose handler is a wallet with three methods:
    0 spawns the account, 1 spends [amount] to [recipient] (the nonce is
    consumed before the balance is checked), 2 fails on an internal
    condition. *)
Module Fixture.

Definition one_byte (d : Decoder) : result N * Decoder :=
  match d with
  | [] => (Err (Errorf "EOF" []), [])
  | b :: d' => (Ok (Byte.to_N b), d')
  end.

Inductive handler := Wallet.
Inductive template := WalletState.
Record args := { recipient : Address; amount : uint64 }.

Definition ctx_t : Type := @Context args handler template.

Definition with_account (a : Account) (touched : list Account) (c : ctx_t)
  : ctx_t :=
  {| Loader := Loader c; Handler := Handler c; CtxTemplate := CtxTemplate c;
     CtxAccount := a; CtxPrincipal := CtxPrincipal c; Method := Method c;
     CtxHeader := CtxHeader c; CtxArgs := CtxArgs c; Touched := touched |}.

Definition wallet_Parse (h : handler) (c : ctx_t) (method : uint8)
    (d : Decoder) : result (Header * args) * Decoder :=
  match one_byte d with
  | (Err e, d) => (Err e, d)
  | (Ok nonce, d) =>
      let header := {| Principal := 0; HMethod := method;
                       HNonce := {| Counter := nonce |}; MaxSpend := 0 |} in
      if method =? 1 then
        match one_byte d with
        | (Err e, d) => (Err e, d)
        | (Ok to, d) =>
            match one_byte d with
            | (Err e, d) => (Err e, d)
            | (Ok amt, d) => (Ok (header, {| recipient := to; amount := amt |}), d)
            end
        end
      else (Ok (header, {| recipient := 0; amount := 0 |}), d)
  end.

Definition bump (a : Account) (balance : uint64) (tpl : option Address)
  : Account :=
  {| Layer := Layer a; Addr := Addr a; Balance := balance;
     NonceCounter := NonceCounter a + 1; Template := tpl; State := State a |}.

Definition credit (a : Account) (n : uint64) : Account :=
  {| Layer := Layer a; Addr := Addr a; Balance := Balance a + n;
     NonceCounter := NonceCounter a; Template := Template a;
     State := State a |}.

Definition wallet_Exec (h : handler) (c : ctx_t) (method : uint8) (a : args)
  : ctx_t * option error :=
  let acc := CtxAccount c in
  if method =? 0 then
    match Template acc with
    | Some _ => (c, Some ErrSpawned)
    | None => (with_account (bump acc (Balance acc) (Some 1)) [] c, None)
    end
  else if method =? 1 then
    let c := with_account (bump acc (Balance acc) (Template acc)) [] c in
    if Balance acc <? amount a then (c, Some ErrNoBalance)
    else
      match Loader c (recipient a) with
      | Err e => (c, Some (Wrapf "%w: %s" [ArgStr (error_text e)] ErrInternal))
      | Ok to =>
          (with_account (bump acc (Balance acc - amount a) (Template acc))
             [credit to (amount a)] c, None)
      end
  else (c, Some (Wrapf "%w: out of resources" [] ErrInternal)).

#[export] Instance wallet_world : @Collaborators args handler template := {|
  DecodeCompact8 := one_byte;
  DecodeAddress := one_byte;
  registry_Get := fun a => if a =? 1 then Some Wallet else None;
  Handler_Parse := wallet_Parse;
  Handler_Init := fun _ _ _ _ => Ok WalletState;
  Handler_Exec := wallet_Exec;
  Template_MaxSpend := fun _ method a => Ok (if method =? 1 then amount a else 0);
  Template_Verify := fun _ _ raw => negb (Nat.eqb (length raw) 0);
|}.

Definition byte (n : N) : Byte.byte := default Byte.x00 (Byte.of_N n).

(** Transactions: version, principal, method, then the template address
    (spawn) or the handler's fields. *)
Definition spawn_tx (principal template nonce : N) : bytes :=
  map byte [0; principal; 0; template; nonce].
Definition spend_tx (principal nonce to amt : N) : bytes :=
  map byte [0; principal; 1; nonce; to; amt].
Definition fault_tx (principal nonce : N) : bytes :=
  map byte [0; principal; 2; nonce].

Definition wallet_account (address : Address) (balance nonce : uint64)
  : Account :=
  {| Layer := {| Value := 0 |}; Addr := address; Balance := balance;
     NonceCounter := nonce; Template := Some 1; State := [] |}.

Definition healthy (accounts : list Account) : Database :=
  {| rows := foldl write_row ∅ accounts;
     begin_fault := None; read_fault := fun _ => None;
     write_fault := fun _ => None; commit_fault := None |}.

(** A database whose reads fail. *)
Definition unreadable (accounts : list Account) : Database :=
  {| rows := foldl write_row ∅ accounts;
     begin_fault := None;
     read_fault := fun _ => Some (Wrapf "%w: disk I/O error" [] ErrInternal);
     write_fault := fun _ => None; commit_fault := None |}.

Definition layer7 : LayerID := {| Value := 7 |}.

(** Databases and requests to run the engine on. Account 10 is a spawned
    wallet with balance 100 and next nonce 5; account 12 records the
    template address 2, which the registry does not know. *)
Definition vm0 : VM := {| db := healthy [wallet_account 10 100 5] |}.
Definition fresh_vm : VM := {| db := healthy [] |}.
Definition unreadable_vm : VM := {| db := unreadable [wallet_account 10 100 5] |}.
Definition foreign_vm : VM :=
  {| db := healthy [ {| Layer := {| Value := 0 |}; Addr := 12; Balance := 1;
                        NonceCounter := 0; Template := Some 2; State := [] |} ] |}.

(** The staged state [Apply] starts from. *)
Definition start (vm : VM) : StagedState :=
  NewStagedState (Tx_Latest (opened vm)).

Definition request (vm : VM) (raw : bytes) : @Request args handler template :=
  Validation vm raw.

(** The request left by a [Parse] that rejected its input (version 1). *)
Definition rejected_request : @Request args handler template :=
  match snd (Request_Parse (request vm0 (map byte [1]))) with
  | Ret (_, r) => r
  | Panic _ => request vm0 (map byte [1])
  end.

(** A batch with one transaction of each kind: an execution that fails
    for lack of balance, a nonce that is no longer the next one, bytes
    that do not parse, and a spawn that succeeds. *)
Definition mixed_batch : list bytes :=
  [spend_tx 10 5 11 130; spend_tx 10 5 11 1; map byte [1]; spawn_tx 20 1 0].

(** Two genesis records for one address. *)
Definition clashing_genesis : list Account :=
  [wallet_account 10 100 5; wallet_account 10 7 0].

End Fixture.


(** ** LayerID on the wire (package types, generated by scalegen) *)

Section LayerIDScale.

(** [scale.Encoder]: the bytes written so far. *)
Definition Encoder : Type := bytes.

(** The go-scale primitives the generated code calls: each returns the
    number of bytes it wrote or read, or an error. *)
Variable EncodeCompact32 : Encoder -> uint32 -> result Z * Encoder.
Variable DecodeCompact32 : Decoder -> result (uint32 * Z) * Decoder.

(** [(t *LayerID) EncodeScale(enc)]: the returned [(total, err)] and the
    encoder afterwards. *)
Definition LayerID_EncodeScale (t : LayerID) (enc : Encoder)
  : (Z * option error) * Encoder :=
  let total := 0%Z in
  match EncodeCompact32 enc (Value t) with
  | (Err err, enc) => ((total, Some err), enc)
  | (Ok n, enc) =>
      let total := (total + n)%Z in
      ((total, None), enc)
  end.

(** [(t *LayerID) DecodeScale(dec)]: the returned [(total, err)], the
    receiver and the decoder afterwards. *)
Definition LayerID_DecodeScale (t : LayerID) (dec : Decoder)
  : (Z * option error) * LayerID * Decoder :=
  let total := 0%Z in
  match DecodeCompact32 dec with
  | (Err err, dec) => ((total, Some err), t, dec)
  | (Ok (field, n), dec) =>
      let total := (total + n)%Z in
      ((total, None), {| Value := field |}, dec)
  end.

End LayerIDScale.

(** ** Connections (package net, conn.go) *)

Module Net.

(** The package-level error values of conn.go. *)
Inductive sentinel :=
| ErrClosedIncomingChannel | ErrConnectionClosed | ErrAlreadyClosed
| ErrTriedToSetupExistingConn | ErrIncomingSessionTimeout
| ErrMsgExceededLimit.

(** An error value: one of the package-level values, an error built where
    it is returned ([errors.New], [fmt.Errorf]), or an error of the
    connection's surroundings (the socket, the network layer). *)
Inductive error :=
| Sentinel (s : sentinel)
| New (msg : string)
| Foreign (what : string).

(** [cerr != ErrAlreadyClosed], for an error interface value that may be
    nil. *)
Definition is_not_ErrAlreadyClosed (cerr : option error) : bool :=
  match cerr with
  | Some (Sentinel ErrAlreadyClosed) => false
  | _ => true
  end.

Inductive severity := LogInfo | LogWarning | LogError.

(** What a connection does to its surroundings, in the order it does it:
    calls on the socket (deadliner, writer, closer), on the network
    layer, and on the logger. Connections are named by their id. *)
Inductive event :=
| SetWriteDeadline (deadline : Z)
| WriteRecord (m : bytes)
| CloseSocket
| EnqueueMessage (conn : string) (message : bytes)
| PublishClosingConnection (conn : string) (err : option error)
| PreSessionMessage (conn : string) (msg : bytes)
| LogLine (l : severity) (text : string).

Definition is_CloseSocket (e : event) : bool :=
  match e with CloseSocket => true | _ => false end.

Definition is_PublishClosingConnection (e : event) : bool :=
  match e with PublishClosingConnection _ _ => true | _ => false end.

(** The records handed to the writer, oldest first. *)
Fixpoint written (tr : list event) : list bytes :=
  match tr with
  | [] => []
  | WriteRecord m :: tr => m :: written tr
  | _ :: tr => written tr
  end.

(** The messages handed to the network layer, oldest first. *)
Fixpoint enqueued (tr : list event) : list bytes :=
  match tr with
  | [] => []
  | EnqueueMessage _ m :: tr => m :: enqueued tr
  | _ :: tr => enqueued tr
  end.

Definition closings (tr : list event) : nat :=
  length (List.filter is_CloseSocket tr).

Definition publications (tr : list event) : nat :=
  length (List.filter is_PublishClosingConnection tr).

Section Connection.

(** [p2pcrypto.PublicKey] and [NetworkSession] are declared outside the
    given sources. *)
Context {PublicKey NetworkSession : Type}.

(** [FormattedConnection]: the fields that hold data. The handles
    ([logger], [networker], [r], [w], [deadliner], [close], [sendQueue])
    are the surroundings, the mutex [wmtx] makes the methods that take it
    atomic, and [created] and [timeout] are never read. [session] may be
    nil. *)
Record FormattedConnection := {
  id : string;
  remotePub : PublicKey;
  remoteAddr : string;
  session : option NetworkSession;
  deadline : Z;
  closed : bool;
  msgSizeLimit : Z;
}.

(** What the surroundings answer. An answer may depend on everything the
    connection did before. [Key_String] is [c.RemotePublicKey().String()],
    a method call on a value of a type declared outside the given sources;
    [HandlePreSessionIncomingMessage] receives the connection by pointer
    and returns it as it leaves it. [UnlimitedMsgSize] is the constant of
    package config. *)
Class Surroundings := {
  WriteRecord_err : list event -> bytes -> option error;
  Close_err : list event -> option error;
  Key_String : PublicKey -> outcome string;
  HandlePreSessionIncomingMessage :
    list event -> FormattedConnection -> bytes ->
    option error * FormattedConnection;
  UnlimitedMsgSize : Z;
}.

Context {W : Surroundings}.

(** [newConnection]; [uuid] is the result of [crypto.UUIDString()]. *)
Definition newConnection (uuid : string) (addr : string)
    (remotePub : PublicKey) (session : option NetworkSession)
    (msgSizeLimit deadline : Z) : FormattedConnection :=
  {| id := uuid; remotePub := remotePub; remoteAddr := addr;
     session := session; deadline := deadline; closed := false;
     msgSizeLimit := msgSizeLimit |}.

Definition ID (c : FormattedConnection) : string := id c.
Definition RemoteAddr (c : FormattedConnection) : string := remoteAddr c.
Definition RemotePublicKey (c : FormattedConnection) : PublicKey := remotePub c.
Definition Session (c : FormattedConnection) : option NetworkSession :=
  session c.
Definition String (c : FormattedConnection) : string := id c.

Definition SetRemotePublicKey (c : FormattedConnection) (key : PublicKey)
  : FormattedConnection :=
  {| id := id c; remotePub := key; remoteAddr := remoteAddr c;
     session := session c; deadline := deadline c; closed := closed c;
     msgSizeLimit := msgSizeLimit c |}.

Definition SetSession (c : FormattedConnection)
    (s : option NetworkSession) : FormattedConnection :=
  {| id := id c; remotePub := remotePub c; remoteAddr := remoteAddr c;
     session := s; deadline := deadline c; closed := closed c;
     msgSizeLimit := msgSizeLimit c |}.

(** [c.closed = true] *)
Definition set_closed (c : FormattedConnection) : FormattedConnection :=
  {| id := id c; remotePub := remotePub c; remoteAddr := remoteAddr c;
     session := session c; deadline := deadline c; closed := true;
     msgSizeLimit := msgSizeLimit c |}.

(** [publish] *)
Definition publish (c : FormattedConnection) (tr : list event)
    (message : bytes) : list event :=
  tr ++ [EnqueueMessage (id c) message].

(** [closeUnlocked]: the returned error, the connection and the events
    afterwards. *)
Definition closeUnlocked (c : FormattedConnection) (tr : list event)
  : outcome (option error * FormattedConnection * list event) :=
  if closed c then Ret (Some (Sentinel ErrAlreadyClosed), c, tr)
  else
    let err := Close_err tr in
    let tr := tr ++ [CloseSocket] in
    let c := set_closed c in
    match err with
    | Some err =>
        match Key_String (RemotePublicKey c) with
        | Panic msg => Panic msg
        | Ret _ =>
            Ret (Some err, c,
                 tr ++ [LogLine LogWarning
                          "error while closing with connection %v, err: %v"])
        end
    | None => Ret (None, c, tr)
    end.

(** [Close] *)
Definition Close (c : FormattedConnection) (tr : list event)
  : outcome (option error * FormattedConnection * list event) :=
  closeUnlocked c tr.

(** [Closed] *)
Definition Closed (c : FormattedConnection) : bool := closed c.

(** [SendNow] *)
Definition SendNow (c : FormattedConnection) (tr : list event) (m : bytes)
  : outcome (option error * FormattedConnection * list event) :=
  if closed c then Ret (Some (New "connection was closed"), c, tr)
  else
    let tr := tr ++ [SetWriteDeadline (deadline c)] in
    let err := WriteRecord_err tr m in
    let tr := tr ++ [WriteRecord m] in
    match err with
    | Some err =>
        match closeUnlocked c tr with
        | Panic msg => Panic msg
        | Ret (cerr, c, tr) =>
            let tr :=
              if is_not_ErrAlreadyClosed cerr
              then tr ++ [PublishClosingConnection (id c) (Some err)]
              else tr in
            Ret (Some err, c, tr)
        end
    | None => Ret (None, c, tr)
    end.

(** [sendRoutine], on the messages it takes from [sendQueue] before the
    queue runs empty: the error it puts on the [res] channel of each
    message it got to, in order. *)
Fixpoint sendRoutine (c : FormattedConnection) (tr : list event)
    (queue : list bytes)
  : outcome (list (option error) * FormattedConnection * list event) :=
  match queue with
  | [] => Ret ([], c, tr)
  | b :: queue =>
      match SendNow c tr b with
      | Panic msg => Panic msg
      | Ret (err, c, tr) =>
          let tr := tr ++ [LogLine LogInfo "SEND TOOK - %v "] in
          match err with
          | Some _ => Ret ([err], c, tr)
          | None =>
              match sendRoutine c tr queue with
              | Panic msg => Panic msg
              | Ret (answers, c, tr) => Ret (err :: answers, c, tr)
              end
          end
      end
  end.

(** What the [select] of [setupIncoming] receives: the result of the
    reader's [Next] from the channel, or the timer. *)
Inductive arrival :=
| Arrived (msg : bytes) (err : option error)
| TimedOut.

(** [c.Close()] with its result dropped. *)
Definition Close_ (c : FormattedConnection) (tr : list event)
  : outcome (FormattedConnection * list event) :=
  match Close c tr with
  | Panic msg => Panic msg
  | Ret (_, c, tr) => Ret (c, tr)
  end.

(** [setupIncoming], from the [select] on: the goroutine that reads the
    first message and the timer are surroundings, and what the [select]
    receives from them is the argument [a]. *)
Definition setupIncoming (c : FormattedConnection) (tr : list event)
    (a : arrival) : outcome (option error * FormattedConnection * list event) :=
  match a with
  | Arrived msg (Some err) =>
      match Close_ c tr with
      | Panic p => Panic p
      | Ret (c, tr) => Ret (Some err, c, tr)
      end
  | Arrived msg None =>
      if negb (msgSizeLimit c =? UnlimitedMsgSize)%Z
         && (msgSizeLimit c <? Z.of_nat (length msg))%Z
      then
        Ret (Some (Sentinel ErrMsgExceededLimit), c,
             tr ++ [LogLine LogError "setupIncoming: message is too big"])
      else
        match session c with
        | Some _ =>
            match Close_ c tr with
            | Panic p => Panic p
            | Ret (c, tr) => Ret (Some (New "setup connection twice"), c, tr)
            end
        | None =>
            let '(err, c') := HandlePreSessionIncomingMessage tr c msg in
            let tr := tr ++ [PreSessionMessage (id c) msg] in
            match err with
            | Some err =>
                match Close_ c' tr with
                | Panic p => Panic p
                | Ret (c, tr) => Ret (Some err, c, tr)
                end
            | None => Ret (None, c', tr)
            end
        end
  | TimedOut =>
      match Close_ c tr with
      | Panic p => Panic p
      | Ret (c, tr) =>
          Ret (Some (New "timeout while waiting for session message"), c, tr)
      end
  end.

(** The loop of [beginEventProcessing] over the messages the reader's
    [Next] returns before it returns the error [final]: the error the loop
    breaks with, and the events afterwards. *)
Fixpoint read_loop (c : FormattedConnection) (tr : list event)
    (reads : list bytes) (final : error) : error * list event :=
  match reads with
  | [] => (final, tr)
  | buf :: reads =>
      match session c with
      | None => (Sentinel ErrTriedToSetupExistingConn, tr)
      | Some _ => read_loop c (publish c tr buf) reads final
      end
  end.

(** [beginEventProcessing], the goroutine it starts for [sendRoutine]
    apart. *)
Definition beginEventProcessing (c : FormattedConnection) (tr : list event)
    (reads : list bytes) (final : error)
  : outcome (FormattedConnection * list event) :=
  let '(err, tr) := read_loop c tr reads final in
  match Close c tr with
  | Panic msg => Panic msg
  | Ret (cerr, c, tr) =>
      Ret (c,
           if is_not_ErrAlreadyClosed cerr
           then tr ++ [PublishClosingConnection (id c) (Some err)]
           else tr)
  end.

(** Calls of the methods that take the mutex, and of the setters, one
    after the other. *)
Inductive call :=
| CallSendNow (m : bytes)
| CallClose
| CallClosed
| CallSetSession (s : option NetworkSession)
| CallSetRemotePublicKey (key : PublicKey).

Inductive answer :=
| Returned (err : option error)
| ReturnedBool (b : bool)
| ReturnedNothing.

Definition do_call (k : call) (c : FormattedConnection) (tr : list event)
  : outcome (answer * FormattedConnection * list event) :=
  match k with
  | CallSendNow m =>
      match SendNow c tr m with
      | Panic p => Panic p
      | Ret (err, c, tr) => Ret (Returned err, c, tr)
      end
  | CallClose =>
      match Close c tr with
      | Panic p => Panic p
      | Ret (err, c, tr) => Ret (Returned err, c, tr)
      end
  | CallClosed => Ret (ReturnedBool (Closed c), c, tr)
  | CallSetSession s => Ret (ReturnedNothing, SetSession c s, tr)
  | CallSetRemotePublicKey key =>
      Ret (ReturnedNothing, SetRemotePublicKey c key, tr)
  end.

Fixpoint do_calls (ks : list call) (c : FormattedConnection)
    (tr : list event)
  : outcome (list answer * FormattedConnection * list event) :=
  match ks with
  | [] => Ret ([], c, tr)
  | k :: ks =>
      match do_call k c tr with
      | Panic p => Panic p
      | Ret (a, c, tr) =>
          match do_calls ks c tr with
          | Panic p => Panic p
          | Ret (answers, c, tr) => Ret (a :: answers, c, tr)
          end
      end
  end.

(** What a call answers on a closed connection. *)
Definition answer_when_closed (k : call) : answer :=
  match k with
  | CallSendNow _ => Returned (Some (New "connection was closed"))
  | CallClose => Returned (Some (Sentinel ErrAlreadyClosed))
  | CallClosed => ReturnedBool true
  | CallSetSession _ | CallSetRemotePublicKey _ => ReturnedNothing
  end.

(** The messages of the [SendNow] calls that returned nil, in order. *)
Fixpoint acknowledged (ks : list call) (answers : list answer) : list bytes :=
  match ks, answers with
  | CallSendNow m :: ks, Returned None :: answers =>
      m :: acknowledged ks answers
  | _ :: ks, _ :: answers => acknowledged ks answers
  | _, _ => []
  end.

End Connection.

End Net.

(** ** More inputs to run the code on *)

Module Trial.

(** A database that refuses to write account 13. *)
Definition picky : Database :=
  {| rows := ∅; begin_fault := None; read_fault := fun _ => None;
     write_fault := fun a =>
       if Addr a =? 13 then Some (Errorf "constraint failed" []) else None;
     commit_fault := None |}.

(** A codec that writes a layer number below 256 as one byte. *)
Definition encode_byte (enc : Encoder) (v : uint32) : result Z * Encoder :=
  match Byte.of_N v with
  | Some b => (Ok 1%Z, enc ++ [b])
  | None => (Err (Errorf "value out of range" []), enc)
  end.

Definition decode_byte (dec : Decoder) : result (uint32 * Z) * Decoder :=
  match dec with
  | [] => (Err (Errorf "EOF" []), [])
  | b :: dec => (Ok (Byte.to_N b, 1%Z), dec)
  end.

(** The surroundings of a connection whose socket takes two records and
    then breaks, closes without an error, and whose network layer accepts
    the first message of a connection and gives it a session. *)
Definition socket : @Net.Surroundings string unit :=
  {| Net.WriteRecord_err := fun tr _ =>
       if (2 <=? length (Net.written tr))%nat
       then Some (Net.Foreign "broken pipe") else None;
     Net.Close_err := fun _ => None;
     Net.Key_String := fun k => Ret k;
     Net.HandlePreSessionIncomingMessage := fun _ c _ =>
       (None, Net.SetSession c (Some tt));
     Net.UnlimitedMsgSize := 0%Z |}.

(** An outgoing connection with a session, and an incoming one without. *)
Definition established : @Net.FormattedConnection string unit :=
  Net.newConnection "c1" "10.0.0.1:7513" "peer" (Some tt) 4 1000.
Definition incoming : @Net.FormattedConnection string unit :=
  Net.newConnection "c2" "10.0.0.2:7513" "" None 4 1000.

Definition m1 : bytes := [Byte.x01].
Definition m2 : bytes := [Byte.x02; Byte.x02].
Definition m3 : bytes := [Byte.x03; Byte.x03; Byte.x03].

Definition calls : list (@Net.call string unit) :=
  [Net.CallSendNow m1; Net.CallClosed; Net.CallSendNow m2; Net.CallSendNow m3;
   Net.CallClose; Net.CallSendNow m1].

End Trial.

(** ** Properties *)

(** *** The writer *)

Lemma bind_ret_l {A B} (a : A) (k : A -> M B) : bind (ret a) k = k a.
Proof. unfold bind, ret. now destruct (k a). Qed.

Lemma bind_assoc {A B C} (m : M A) (k : A -> M B) (h : B -> M C) :
  bind (bind m k) h = bind m (fun a => bind (k a) h).
Proof.
  destruct m as [l [a | msg]]; simpl; [| reflexivity].
  destruct (k a) as [l1 [b | msg]]; simpl; [| reflexivity].
  destruct (h b) as [l2 r]. now rewrite app_assoc.
Qed.

Lemma snd_bind_Ret {A B} (m : M A) (k : A -> M B) (a : A) :
  snd m = Ret a -> snd (bind m k) = snd (k a).
Proof.
  destruct m as [l o]; simpl; intros ->. now destruct (k a).
Qed.

Lemma snd_bind_Panic {A B} (m : M A) (k : A -> M B) msg :
  snd m = Panic msg -> snd (bind m k) = Panic msg.
Proof. destruct m as [l o]; simpl; now intros ->. Qed.

Lemma snd_bind_inv {A B} (m : M A) (k : A -> M B) (b : B) :
  snd (bind m k) = Ret b -> exists a, snd m = Ret a /\ snd (k a) = Ret b.
Proof.
  destruct m as [l [a | msg]]; simpl; [| discriminate].
  destruct (k a) as [l' r] eqn:Hk; simpl; intros ->. exists a. now rewrite Hk.
Qed.

Lemma bind_emit {B} lv msg fs (k : unit -> M B) :
  bind (emit lv msg fs) k =
  ({| lvl := lv; text := msg; fields := fs |} :: fst (k tt), snd (k tt)).
Proof. unfold bind, emit. now destruct (k tt). Qed.

Lemma fmap_M_bind {A B C} (f : B -> C) (m : M A) (k : A -> M B) :
  fmap_M f (bind m k) = bind m (fun a => fmap_M f (k a)).
Proof.
  destruct m as [l [a | msg]]; simpl; [| reflexivity].
  unfold fmap_M. now destruct (k a).
Qed.

Lemma bind_ext {A B} (m : M A) (k k' : A -> M B) :
  (forall a, k a = k' a) -> bind m k = bind m k'.
Proof.
  intros H. destruct m as [l [a | msg]]; simpl; [| reflexivity].
  now rewrite H.
Qed.

Lemma committed_bind {A B} (m : M A) (k : A -> M (B * option Database)) a :
  snd m = Ret a -> committed (bind m k) = committed (k a).
Proof. intros H. unfold committed. now rewrite (snd_bind_Ret _ _ _ H). Qed.

(** *** Errors *)

Lemma wrap_internal_is_internal err :
  errors_Is (wrap_internal err) SInternal = true.
Proof. reflexivity. Qed.

(** *** The store *)

Lemma foldl_write_row_other (l : list Account) (m : gmap Address Account) k :
  k ∉ map Addr l -> foldl write_row m l !! k = m !! k.
Proof.
  revert m. induction l as [| a l IH]; intros m Hk; [reflexivity |].
  simpl in *. apply not_elem_of_cons in Hk as [Hne Hk].
  rewrite IH by assumption.
  unfold write_row. apply lookup_insert_ne. congruence.
Qed.

Lemma foldl_write_row_lookup (l : list Account) (m : gmap Address Account) a :
  NoDup (map Addr l) -> a ∈ l -> foldl write_row m l !! Addr a = Some a.
Proof.
  revert m. induction l as [| b l IH]; intros m Hnd Hin.
  - now apply elem_of_nil in Hin.
  - simpl in *. apply NoDup_cons in Hnd as [Hb Hnd].
    apply elem_of_cons in Hin as [-> | Hin].
    + rewrite foldl_write_row_other by assumption.
      unfold write_row. apply lookup_insert_eq.
    + now apply IH.
Qed.

Lemma foldl_write_row_elem (l : list Account) (m : gmap Address Account) k a :
  foldl write_row m l !! k = Some a -> m !! k = Some a \/ (a ∈ l /\ Addr a = k).
Proof.
  revert m. induction l as [| b l IH]; intros m H; simpl in *; [now left |].
  apply IH in H as [H | [H1 H2]].
  - unfold write_row in H. rewrite lookup_insert in H.
    case_decide; [right | now left]. injection H as <-.
    split; [apply elem_of_cons; now left | congruence].
  - right. split; [apply elem_of_cons; now right | assumption].
Qed.

(** *** One iteration of the loop of Apply *)

Section Properties.

Context {Args HandlerT TemplateT : Type}.
Context {E : @Collaborators Args HandlerT TemplateT}.

Lemma update_all_ok (accounts : list Account) (ss : StagedState) :
  fst (update_all ss accounts) = None.
Proof.
  revert ss. induction accounts as [| a rest IH]; intros ss; simpl; auto.
Qed.

Lemma Context_Apply_ok (ctx : @Context Args HandlerT TemplateT)
    (ss : StagedState) :
  Context_Apply ctx ss = (None, snd (Context_Apply ctx ss)).
Proof.
  pose proof (update_all_ok (CtxAccount ctx :: Touched ctx) ss) as H.
  unfold Context_Apply. destruct (update_all _ _) as [e ss']. simpl in *.
  now subst.
Qed.

Lemma apply_tx_crash ss sk tx log msg :
  parse (StagedState_Get ss) tx = (log, Panic msg) ->
  apply_tx ss sk tx = (log, Panic msg).
Proof. intros H. unfold apply_tx. now rewrite H. Qed.

Lemma apply_tx_parse_failed ss sk tx log err dec :
  parse (StagedState_Get ss) tx = (log, Ret (Err err, dec)) ->
  apply_tx ss sk tx =
  (log ++ [ {| lvl := Warning; text := "skipping transaction. failed to parse";
               fields := [FErr err] |} ],
   Ret (Next ss (sk ++ [tx]))).
Proof. intros H. unfold apply_tx. now rewrite H. Qed.

Lemma apply_tx_nonce_mismatch ss sk tx log hdr ctx args dec :
  parse (StagedState_Get ss) tx = (log, Ret (Ok (hdr, ctx, args), dec)) ->
  (NextNonce (CtxAccount ctx) =? Counter (HNonce (CtxHeader ctx))) = false ->
  apply_tx ss sk tx =
  (log ++ [nonce_check_failed (NextNonce (CtxAccount ctx))
             (Counter (HNonce (CtxHeader ctx)))],
   Ret (Next ss (sk ++ [tx]))).
Proof. intros H Hn. unfold apply_tx. rewrite H. simpl. now rewrite Hn. Qed.

Lemma apply_tx_executed ss sk tx log hdr ctx args dec ctx' :
  parse (StagedState_Get ss) tx = (log, Ret (Ok (hdr, ctx, args), dec)) ->
  (NextNonce (CtxAccount ctx) =? Counter (HNonce (CtxHeader ctx))) = true ->
  Handler_Exec (Handler ctx) ctx (Method ctx) args = (ctx', None) ->
  apply_tx ss sk tx = (log, Ret (Next (snd (Context_Apply ctx' ss)) sk)).
Proof.
  intros H Hn Hx. unfold apply_tx. rewrite H. simpl. rewrite Hn, Hx. simpl.
  rewrite Context_Apply_ok. simpl. now rewrite app_nil_r.
Qed.

Lemma apply_tx_exec_failed ss sk tx log hdr ctx args dec ctx' err :
  parse (StagedState_Get ss) tx = (log, Ret (Ok (hdr, ctx, args), dec)) ->
  (NextNonce (CtxAccount ctx) =? Counter (HNonce (CtxHeader ctx))) = true ->
  Handler_Exec (Handler ctx) ctx (Method ctx) args = (ctx', Some err) ->
  errors_Is err SInternal = false ->
  apply_tx ss sk tx =
  (log ++ [execution_failed err], Ret (Next (snd (Context_Apply ctx' ss)) sk)).
Proof.
  intros H Hn Hx Hi. unfold apply_tx. rewrite H. simpl. rewrite Hn, Hx. simpl.
  rewrite Hi, Context_Apply_ok. simpl. reflexivity.
Qed.

Lemma apply_tx_exec_internal ss sk tx log hdr ctx args dec ctx' err :
  parse (StagedState_Get ss) tx = (log, Ret (Ok (hdr, ctx, args), dec)) ->
  (NextNonce (CtxAccount ctx) =? Counter (HNonce (CtxHeader ctx))) = true ->
  Handler_Exec (Handler ctx) ctx (Method ctx) args = (ctx', Some err) ->
  errors_Is err SInternal = true ->
  apply_tx ss sk tx = (log ++ [execution_failed err], Ret (Return err)).
Proof.
  intros H Hn Hx Hi. unfold apply_tx. rewrite H. simpl. rewrite Hn, Hx. simpl.
  now rewrite Hi.
Qed.

(** The six ways an iteration can go. *)
Ltac tx_cases ss tx :=
  let log := fresh "log" in
  let hdr := fresh "hdr" in
  let ctx := fresh "ctx" in
  let args := fresh "args" in
  let err := fresh "err" in
  let dec := fresh "dec" in
  let msg := fresh "msg" in
  let ctx' := fresh "ctx'" in
  let Hparse := fresh "Hparse" in
  let Hnonce := fresh "Hnonce" in
  let Hexec := fresh "Hexec" in
  let Hint := fresh "Hint" in
  destruct (parse (StagedState_Get ss) tx)
    as [log [[[[[hdr ctx] args] | err] dec] | msg]] eqn:Hparse;
  [ destruct (NextNonce (CtxAccount ctx) =? Counter (HNonce (CtxHeader ctx)))
      eqn:Hnonce;
    [ destruct (Handler_Exec (Handler ctx) ctx (Method ctx) args)
        as [ctx' [err |]] eqn:Hexec;
      [ destruct (errors_Is err SInternal) eqn:Hint;
        [ rewrite ?(apply_tx_exec_internal ss _ tx _ _ _ _ _ _ _
                      Hparse Hnonce Hexec Hint) in *
        | rewrite ?(apply_tx_exec_failed ss _ tx _ _ _ _ _ _ _
                      Hparse Hnonce Hexec Hint) in * ]
      | rewrite ?(apply_tx_executed ss _ tx _ _ _ _ _ _
                    Hparse Hnonce Hexec) in * ]
    | rewrite ?(apply_tx_nonce_mismatch ss _ tx _ _ _ _ _ Hparse Hnonce) in * ]
  | rewrite ?(apply_tx_parse_failed ss _ tx _ _ _ Hparse) in *
  | rewrite ?(apply_tx_crash ss _ tx _ _ Hparse) in * ].

Lemma apply_tx_prepend ss sk tx :
  apply_tx ss sk tx = fmap_M (prepend sk) (apply_tx ss [] tx).
Proof.
  tx_cases ss tx; unfold fmap_M; simpl; rewrite ?app_nil_r; reflexivity.
Qed.

Lemma apply_tx_next ss sk tx ss1 sk1 :
  snd (apply_tx ss sk tx) = Ret (Next ss1 sk1) ->
  staged_after ss tx = Some ss1 /\
  sk1 = sk ++ (if is_skipped (verdict_of ss tx) then [tx] else []).
Proof.
  unfold staged_after, verdict_of.
  tx_cases ss tx; simpl; try rewrite Hnonce; try rewrite Hexec; simpl;
    intros H; try discriminate H; injection H as <- <-;
    rewrite ?app_nil_r; auto.
Qed.

(** *** The loop of Apply *)

Lemma bind_fmap_M {A B C} (f : A -> B) (m : M A) (k : B -> M C) :
  bind (fmap_M f m) k = bind m (fun a => k (f a)).
Proof. now destruct m as [l [a | msg]]. Qed.

Lemma fmap_M_fmap_M {A B C} (f : A -> B) (g : B -> C) (m : M A) :
  fmap_M g (fmap_M f m) = fmap_M (fun a => g (f a)) m.
Proof. now destruct m as [l [a | msg]]. Qed.

Lemma fmap_M_ext {A B} (f g : A -> B) (m : M A) :
  (forall a, f a = g a) -> fmap_M f m = fmap_M g m.
Proof.
  intros H. destruct m as [l [a | msg]]; unfold fmap_M; simpl; [| easy].
  now rewrite H.
Qed.

Lemma prepend_prepend sk sk' s :
  prepend sk (prepend sk' s) = prepend (sk ++ sk') s.
Proof. destruct s; simpl; [| reflexivity]. now rewrite app_assoc. Qed.

(** The skipped list is an accumulator: the loop appends to it and never
    reads it. *)
Lemma apply_loop_prepend txs ss sk :
  apply_loop ss sk txs = fmap_M (prepend sk) (apply_loop ss [] txs).
Proof.
  revert ss sk. induction txs as [| tx rest IH]; intros ss sk; simpl.
  - unfold fmap_M, ret; simpl. now rewrite app_nil_r.
  - rewrite (apply_tx_prepend ss sk), bind_fmap_M, fmap_M_bind.
    apply bind_ext. intros [ss1 sk1 | err]; simpl; [| reflexivity].
    rewrite (IH ss1 (sk ++ sk1)), (IH ss1 sk1), fmap_M_fmap_M.
    apply fmap_M_ext. intros s. now rewrite prepend_prepend.
Qed.

Lemma apply_loop_app pre rest ss sk :
  apply_loop ss sk (pre ++ rest) =
  bind (apply_loop ss sk pre)
    (fun s => match s with
              | Next ss sk => apply_loop ss sk rest
              | Return err => ret (Return err)
              end).
Proof.
  revert ss sk. induction pre as [| tx pre IH]; intros ss sk.
  - cbn [app apply_loop]. now rewrite bind_ret_l.
  - cbn [app apply_loop]. rewrite bind_assoc. apply bind_ext.
    intros [ss1 sk1 | err]; [apply IH | reflexivity].
Qed.

Lemma apply_loop_cons_next ss sk tx rest ss1 sk1 :
  snd (apply_tx ss sk tx) = Ret (Next ss1 sk1) ->
  snd (apply_loop ss sk (tx :: rest)) = snd (apply_loop ss1 sk1 rest).
Proof. intros H. simpl. now rewrite (snd_bind_Ret _ _ _ H). Qed.

Lemma apply_loop_cons_return ss sk tx rest err :
  snd (apply_tx ss sk tx) = Ret (Return err) ->
  snd (apply_loop ss sk (tx :: rest)) = Ret (Return err).
Proof. intros H. simpl. now rewrite (snd_bind_Ret _ _ _ H). Qed.

(** When the loop runs to its end, every transaction got a verdict and
    the skipped list grew by the transactions whose verdict is a skip. *)
Lemma apply_loop_skipped txs ss sk ss' sk' :
  snd (apply_loop ss sk txs) = Ret (Next ss' sk') ->
  length (batch_verdicts ss txs) = length txs /\
  sk' = sk ++ skipped_of ss txs.
Proof.
  revert ss sk. induction txs as [| tx rest IH]; intros ss sk H.
  - simpl in H. injection H as <- <-. unfold skipped_of. simpl.
    now rewrite app_nil_r.
  - simpl in H. apply snd_bind_inv in H as [[ss1 sk1 | err] [Htx Hrest]];
      [| discriminate Hrest].
    apply apply_tx_next in Htx as [Hafter ->].
    apply IH in Hrest as [Hlen ->].
    unfold skipped_of. simpl. rewrite Hafter. simpl.
    split; [now rewrite Hlen |].
    rewrite filter_cons. simpl.
    destruct (is_skipped (verdict_of ss tx)); simpl;
      now rewrite <- ?app_assoc, ?app_nil_r.
Qed.

(** *** The flush of the changed accounts *)

(** [IterateChanged] with the callback of [Apply] never crashes; it
    writes the changed accounts, stamped with the layer, in their order,
    up to the first write that fails. *)
Lemma flush_accounts lid accounts tx e0 :
  exists log accs tx' e',
    iterate_accounts (flush_account lid) accounts (tx, e0)
    = (log, Ret (accs, (tx', e'))) /\
    tx_db tx' = tx_db tx /\
    (exists n, pending tx' = pending tx ++ map (set_Layer lid) (take n accounts)) /\
    (e' = None -> pending tx' = pending tx ++ map (set_Layer lid) accounts).
Proof.
  revert tx e0. induction accounts as [| a rest IH]; intros tx e0.
  - exists [], [], tx, e0. simpl. rewrite app_nil_r.
    repeat split; auto. exists 0%nat. simpl. now rewrite app_nil_r.
  - cbn [iterate_accounts]. unfold flush_account at 1.
    rewrite bind_assoc, bind_emit. cbn [fst snd].
    unfold accounts_Update.
    destruct (write_fault (tx_db tx) (set_Layer lid a)) as [err |] eqn:Hw.
    + rewrite bind_ret_l. cbn.
      eexists _, _, tx, (Some err). repeat split; try discriminate.
      exists 0%nat. simpl. now rewrite app_nil_r.
    + rewrite bind_ret_l. cbn iota beta.
      destruct (IH {| tx_db := tx_db tx;
                      pending := pending tx ++ [set_Layer lid a] |} None)
        as (log & accs & tx' & e' & Hrun & Hdb & [n Hn] & Hall).
      rewrite Hrun. cbn in *.
      eexists _, _, tx', e'. repeat split; auto.
      * exists (S n). simpl. rewrite Hn. now rewrite <- app_assoc.
      * intros He. rewrite (Hall He). now rewrite <- app_assoc.
Qed.

Lemma snd_bind_fst {A B} (run : M (A * B)) :
  snd (bind run (fun r => ret (fst r))) =
  match snd run with
  | Ret r => Ret (fst r)
  | Panic msg => Panic msg
  end.
Proof. now destruct run as [l [r | msg]]. Qed.

(** The flush after the loop never crashes. Either it returns an error
    that wraps [ErrInternal] (or the error the loop returned) and commits
    nothing, or it returns the skipped list of the loop and commits the
    changed accounts, each stamped with the layer. *)
Lemma Apply_flush_cases tx lid txs s :
  exists log r odb,
    Apply_flush tx lid txs s = (log, Ret (r, odb)) /\
    match s with
    | Return err => r = Err err /\ odb = None
    | Next ss skipped =>
        (exists err, r = Err (wrap_internal err) /\ odb = None) \/
        (r = Ok skipped /\
         commit_fault (tx_db tx) = None /\
         (exists log' accs tx',
            iterate_accounts (flush_account lid) (changed ss) (tx, None)
            = (log', Ret (accs, (tx', None))) /\
            tx_db tx' = tx_db tx /\
            pending tx' = pending tx ++ map (set_Layer lid) (changed ss)) /\
         odb = Some
           {| rows := foldl write_row (tx_rows tx)
                        (map (set_Layer lid) (changed ss));
              begin_fault := begin_fault (tx_db tx);
              read_fault := read_fault (tx_db tx);
              write_fault := write_fault (tx_db tx);
              commit_fault := commit_fault (tx_db tx) |})
    end.
Proof.
  destruct s as [ss skipped | err]; [| now eexists _, _, _].
  cbn [Apply_flush]. unfold StagedState_IterateChanged.
  destruct (flush_accounts lid (changed ss) tx None)
    as (log & accs & tx' & e' & Hrun & Hdb & _ & Hall).
  rewrite Hrun, bind_assoc. cbn.
  destruct e' as [err |].
  - eexists _, _, _. split; [reflexivity |]. left. now exists err.
  - unfold Tx_Commit. rewrite Hdb.
    destruct (commit_fault (tx_db tx)) as [err |] eqn:Hc.
    + eexists _, _, _. split; [reflexivity |]. left. now exists err.
    + eexists _, _, _. split; [reflexivity |]. right.
      split; [reflexivity |]. split; [reflexivity |]. split.
      * exists log, accs, tx'. auto.
      * unfold tx_rows. rewrite Hdb, (Hall eq_refl).
        now rewrite foldl_app.
Qed.

Lemma committed_Apply_flush_prepend tx lid txs txs' sk s :
  committed (Apply_flush tx lid txs (prepend sk s)) =
  committed (Apply_flush tx lid txs' s).
Proof.
  destruct s as [ss skipped | err]; [| reflexivity].
  unfold committed. cbn [prepend Apply_flush].
  unfold StagedState_IterateChanged.
  destruct (flush_accounts lid (changed ss) tx None)
    as (log & accs & tx' & e' & -> & Hdb & _ & _).
  rewrite !bind_assoc. cbn. destruct e' as [err |]; [reflexivity |].
  unfold Tx_Commit. now destruct (commit_fault (tx_db tx')).
Qed.

(** *** Apply as a whole *)

Lemma Database_Tx_Ok (d : Database) tx :
  Database_Tx d = Ok tx -> tx = {| tx_db := d; pending := [] |}.
Proof.
  unfold Database_Tx. destruct (begin_fault d); [discriminate |].
  now intros [= <-].
Qed.

Lemma Apply_unfold vm lid txs :
  begin_fault (db vm) = None ->
  Apply vm lid txs =
  (bind (Apply_body (opened vm) lid txs) (fun r => ret (fst r)),
   after_release vm (Apply_body (opened vm) lid txs)).
Proof. intros H. unfold Apply, Database_Tx. now rewrite H. Qed.

Lemma Apply_begin_fault vm lid txs err :
  begin_fault (db vm) = Some err ->
  Apply vm lid txs = (ret (Err err), vm).
Proof. intros H. unfold Apply, Database_Tx. now rewrite H. Qed.

Lemma after_release_committed {A} vm (run : M (A * option Database)) :
  after_release vm run =
  match committed run with
  | Some db' => {| db := db' |}
  | None => vm
  end.
Proof.
  unfold after_release, committed.
  now destruct (snd run) as [[a [d |]] | msg].
Qed.

(** What [Apply_body] does once the loop has run to its end. *)
Lemma Apply_body_after_loop tx lid txs s :
  snd (apply_loop (NewStagedState (Tx_Latest tx)) [] txs) = Ret s ->
  snd (Apply_body tx lid txs) = snd (Apply_flush tx lid txs s) /\
  committed (Apply_body tx lid txs) = committed (Apply_flush tx lid txs s).
Proof.
  intros H. unfold Apply_body, committed.
  now rewrite (snd_bind_Ret _ _ _ H).
Qed.

Lemma Apply_body_crash tx lid txs msg :
  snd (apply_loop (NewStagedState (Tx_Latest tx)) [] txs) = Panic msg ->
  snd (Apply_body tx lid txs) = Panic msg.
Proof. intros H. unfold Apply_body. now apply snd_bind_Panic. Qed.

(** A successful [Apply]: the loop ran to its end, its skipped list is
    returned, and the database holds the changed accounts, stamped. *)
Lemma Apply_Ok_inv vm lid txs skipped :
  snd (fst (Apply vm lid txs)) = Ret (Ok skipped) ->
  begin_fault (db vm) = None /\
  commit_fault (db vm) = None /\
  exists ss,
    snd (apply_loop (NewStagedState (Tx_Latest (opened vm))) [] txs)
    = Ret (Next ss skipped) /\
    (exists log accs tx',
       iterate_accounts (flush_account lid) (changed ss) (opened vm, None)
       = (log, Ret (accs, (tx', None))) /\
       tx_db tx' = db vm /\
       pending tx' = map (set_Layer lid) (changed ss)) /\
    snd (Apply vm lid txs) =
    {| db := {| rows := foldl write_row (rows (db vm))
                          (map (set_Layer lid) (changed ss));
                begin_fault := begin_fault (db vm);
                read_fault := read_fault (db vm);
                write_fault := write_fault (db vm);
                commit_fault := commit_fault (db vm) |} |}.
Proof.
  destruct (begin_fault (db vm)) as [err |] eqn:Hb.
  { rewrite (Apply_begin_fault _ _ _ _ Hb). discriminate. }
  rewrite (Apply_unfold _ _ _ Hb). cbn [fst snd].
  rewrite snd_bind_fst, after_release_committed.
  destruct (snd (apply_loop (NewStagedState (Tx_Latest (opened vm))) [] txs))
    as [s | msg] eqn:Hloop.
  2: { now rewrite (Apply_body_crash _ _ _ _ Hloop). }
  destruct (Apply_body_after_loop _ lid _ _ Hloop) as [-> ->].
  destruct (Apply_flush_cases (opened vm) lid txs s)
    as (log & r & odb & Hrun & Hcases).
  unfold committed. rewrite Hrun. cbn [fst snd].
  intros [= ->]. destruct s as [ss sk | err].
  - destruct Hcases as [(err & [=] & _) | ([= ->] & Hc & Hit & ->)].
    split; [reflexivity |]. split; [exact Hc |]. exists ss.
    split; [reflexivity |]. split; [exact Hit |]. cbn. now rewrite Hb.
  - now destruct Hcases as [[=] _].
Qed.

(** Whatever else [Apply] returns, the database is as it was. *)
Lemma Apply_atomic vm lid txs :
  (exists skipped, snd (fst (Apply vm lid txs)) = Ret (Ok skipped)) \/
  snd (Apply vm lid txs) = vm.
Proof.
  destruct (begin_fault (db vm)) as [err |] eqn:Hb.
  { rewrite (Apply_begin_fault _ _ _ _ Hb). now right. }
  rewrite (Apply_unfold _ _ _ Hb). cbn [fst snd].
  rewrite snd_bind_fst, after_release_committed.
  destruct (snd (apply_loop (NewStagedState (Tx_Latest (opened vm))) [] txs))
    as [s | msg] eqn:Hloop.
  2: { right. unfold committed.
       now rewrite (Apply_body_crash _ _ _ _ Hloop). }
  destruct (Apply_body_after_loop _ lid _ _ Hloop) as [-> ->].
  destruct (Apply_flush_cases (opened vm) lid txs s)
    as (log & r & odb & Hrun & Hcases).
  unfold committed. rewrite Hrun. cbn [fst snd].
  destruct s as [ss sk | err].
  - destruct Hcases as [(err & -> & ->) | (-> & _ & _ & ->)];
      [now right | left; now exists sk].
  - destruct Hcases as [-> ->]. now right.
Qed.

Lemma committed_bind_ext {A B C} (m : M A)
    (k1 : A -> M (B * option Database)) (k2 : A -> M (C * option Database)) :
  (forall a, committed (k1 a) = committed (k2 a)) ->
  committed (bind m k1) = committed (bind m k2).
Proof.
  intros H. destruct m as [l [a | msg]]; [| reflexivity].
  specialize (H a). unfold committed in *. simpl.
  now destruct (k1 a), (k2 a).
Qed.

Lemma parse_with_Exec exec loader dec :
  @parse _ _ _ (with_Exec exec) loader dec = parse loader dec.
Proof. reflexivity. Qed.

(** What a batch commits does not depend on a transaction that the loop
    passes over without touching the staged state. *)
Lemma committed_without_skipped tx0 lid pre tx post ss sk sk' :
  snd (apply_loop (NewStagedState (Tx_Latest tx0)) [] pre) = Ret (Next ss sk) ->
  snd (apply_tx ss sk tx) = Ret (Next ss sk') ->
  committed (Apply_body tx0 lid (pre ++ tx :: post)) =
  committed (Apply_body tx0 lid (pre ++ post)).
Proof.
  intros Hpre Htx. unfold Apply_body.
  rewrite !apply_loop_app, !bind_assoc.
  rewrite !(committed_bind _ _ _ Hpre).
  cbn [apply_loop]. rewrite bind_assoc, (committed_bind _ _ _ Htx).
  rewrite (apply_loop_prepend post ss sk), (apply_loop_prepend post ss sk').
  rewrite !bind_fmap_M. apply committed_bind_ext. intros s.
  rewrite (committed_Apply_flush_prepend _ _ _ [] sk' s).
  now rewrite (committed_Apply_flush_prepend _ _ _ [] sk s).
Qed.

(** *** The claims about Apply *)

(** C2. When [Apply] returns a skipped list, every transaction of the
    batch got a verdict, and the list holds exactly the transactions whose
    verdict is a failed parse or a failed nonce check, in the order of the
    batch; a transaction whose execution failed (verdict [ExecFailed]) or
    succeeded is not in it on that account. *)
Theorem Apply_returns_the_skipped vm lid txs skipped :
  snd (fst (Apply vm lid txs)) = Ret (Ok skipped) ->
  let ss0 := NewStagedState (Tx_Latest (opened vm)) in
  length (batch_verdicts ss0 txs) = length txs /\
  skipped =
    map fst (filter (fun p => is_skipped (snd p)) (zip txs (batch_verdicts ss0 txs))) /\
  sublist skipped txs /\
  (forall err, is_skipped (ExecFailed err) = false).
Proof.
  intros H ss0. apply Apply_Ok_inv in H as (_ & _ & ss & Hloop & _ & _).
  apply apply_loop_skipped in Hloop as [Hlen Hsk]. fold ss0 in Hlen, Hsk.
  simpl in Hsk. subst skipped. unfold skipped_of.
  repeat split; auto.
  pose proof (fmap_sublist fst _ _
                (sublist_filter (fun p : bytes * verdict => is_skipped (snd p))
                   (zip txs (batch_verdicts ss0 txs)))) as Hsub.
  rewrite (fst_zip txs (batch_verdicts ss0 txs)) in Hsub by lia.
  exact Hsub.
Qed.

(** C5. When an [Exec] call of the batch returns an error that wraps
    [ErrInternal], [Apply] returns that error and no skipped list, and the
    database is left as it was: nothing of the batch, the earlier
    transactions included, can be read back. *)
Theorem Apply_aborts_on_internal_Exec
    vm lid (pre : list bytes) (tx : bytes) (post : list bytes)
    ss skipped hdr ctx args dec ctx' err :
  begin_fault (db vm) = None ->
  snd (apply_loop (NewStagedState (Tx_Latest (opened vm))) [] pre)
  = Ret (Next ss skipped) ->
  snd (parse (StagedState_Get ss) tx) = Ret (Ok (hdr, ctx, args), dec) ->
  NextNonce (CtxAccount ctx) = Counter (HNonce (CtxHeader ctx)) ->
  Handler_Exec (Handler ctx) ctx (Method ctx) args = (ctx', Some err) ->
  errors_Is err SInternal = true ->
  snd (fst (Apply vm lid (pre ++ tx :: post))) = Ret (Err err) /\
  snd (Apply vm lid (pre ++ tx :: post)) = vm /\
  (forall address,
     Database_Latest (db (snd (Apply vm lid (pre ++ tx :: post)))) address
     = Database_Latest (db vm) address).
Proof.
  intros Hb Hpre Hparse Hnonce Hexec Hint.
  destruct (parse (StagedState_Get ss) tx) as [log o] eqn:Hp.
  simpl in Hparse. subst o. apply N.eqb_eq in Hnonce.
  pose proof (apply_tx_exec_internal ss skipped tx _ _ _ _ _ _ _
                Hp Hnonce Hexec Hint) as Htx.
  assert (Hloop : snd (apply_loop (NewStagedState (Tx_Latest (opened vm))) []
                         (pre ++ tx :: post)) = Ret (Return err)).
  { rewrite apply_loop_app, (snd_bind_Ret _ _ _ Hpre).
    apply apply_loop_cons_return. now rewrite Htx. }
  assert (Hres : snd (fst (Apply vm lid (pre ++ tx :: post))) = Ret (Err err)).
  { rewrite (Apply_unfold _ _ _ Hb). cbn [fst snd]. rewrite snd_bind_fst.
    destruct (Apply_body_after_loop _ lid _ _ Hloop) as [-> _].
    reflexivity. }
  assert (Hvm : snd (Apply vm lid (pre ++ tx :: post)) = vm).
  { destruct (Apply_atomic vm lid (pre ++ tx :: post)) as [[sk Hsk] | Hvm];
      [congruence | exact Hvm]. }
  repeat split; auto. intros address. now rewrite Hvm.
Qed.


(** C9. When [Apply] succeeds, the records written through
    [accounts.Update] are the accounts changed in the staged state, in
    their order, each with [Layer] set to the layer of the batch; they are
    what the commit adds to the database, so every row that differs from
    before carries that layer. *)
Theorem Apply_stamps_the_layer vm lid txs skipped :
  snd (fst (Apply vm lid txs)) = Ret (Ok skipped) ->
  exists ss log accs tx',
    snd (apply_loop (NewStagedState (Tx_Latest (opened vm))) [] txs)
    = Ret (Next ss skipped) /\
    iterate_accounts (flush_account lid) (changed ss) (opened vm, None)
    = (log, Ret (accs, (tx', None))) /\
    pending tx' = map (set_Layer lid) (changed ss) /\
    Forall (fun a => Layer a = lid) (pending tx') /\
    rows (db (snd (Apply vm lid txs))) = tx_rows tx' /\
    (forall k a,
       rows (db (snd (Apply vm lid txs))) !! k = Some a ->
       rows (db vm) !! k = Some a \/ Layer a = lid).
Proof.
  intros H.
  apply Apply_Ok_inv
    in H as (_ & _ & ss & Hloop & (log & accs & tx' & Hit & Hdb & Hpen) & ->).
  exists ss, log, accs, tx'.
  assert (Hall : Forall (fun a => Layer a = lid) (pending tx')).
  { rewrite Hpen. apply Forall_fmap, Forall_true. reflexivity. }
  repeat split; auto.
  - cbn. unfold tx_rows. now rewrite Hdb, Hpen.
  - cbn. intros k a Hk. rewrite <- Hpen in Hk.
    apply foldl_write_row_elem in Hk as [Hk | [Hin _]]; [now left | right].
    rewrite Forall_forall in Hall. now apply Hall.
Qed.

(** C4 as the code has it. When [Exec] returns an error that does not
    wrap [ErrInternal], the error is logged, the transaction is not added
    to the skipped list and the loop goes on with the next one; the context
    as [Exec] left it is flushed into the staged state by [Context.Apply],
    just as it is after an [Exec] that returned no error. *)
Theorem failed_Exec_is_logged_and_flushed
    ss skipped (tx : bytes) log hdr ctx args dec ctx' err :
  parse (StagedState_Get ss) tx = (log, Ret (Ok (hdr, ctx, args), dec)) ->
  NextNonce (CtxAccount ctx) = Counter (HNonce (CtxHeader ctx)) ->
  Handler_Exec (Handler ctx) ctx (Method ctx) args = (ctx', Some err) ->
  errors_Is err SInternal = false ->
  apply_tx ss skipped tx =
    (log ++ [execution_failed err],
     Ret (Next (snd (Context_Apply ctx' ss)) skipped)) /\
  (forall rest,
     snd (apply_loop ss skipped (tx :: rest)) =
     snd (apply_loop (snd (Context_Apply ctx' ss)) skipped rest)) /\
  (forall exec,
     exec (Handler ctx) ctx (Method ctx) args = (ctx', None) ->
     snd (@apply_tx _ _ _ (with_Exec exec) ss skipped tx) =
     snd (apply_tx ss skipped tx)).
Proof.
  intros Hp Hnonce Hexec Hint. apply N.eqb_eq in Hnonce.
  pose proof (apply_tx_exec_failed ss skipped tx _ _ _ _ _ _ _
                Hp Hnonce Hexec Hint) as Htx.
  split; [exact Htx |]. split.
  - intros rest. apply apply_loop_cons_next. now rewrite Htx.
  - intros exec Hexec'. rewrite Htx. unfold apply_tx.
    rewrite parse_with_Exec, Hp. simpl. rewrite Hnonce. simpl.
    rewrite Hexec'. simpl. now rewrite Context_Apply_ok.
Qed.

End Properties.

(** *** Validation requests *)

Section Requests.

Context {Args HandlerT TemplateT : Type}.
Context {E : @Collaborators Args HandlerT TemplateT}.

Lemma Request_Parse_failed (r : @Request Args HandlerT TemplateT) log err r' :
  Request_Parse r = (log, Ret (Err err, r')) ->
  ctx r' = ctx r /\ vm r' = vm r /\ raw r' = raw r.
Proof.
  unfold Request_Parse.
  destruct (parse _ (decoder r)) as [l [[[[[h c] a] | e] d] | msg]]; simpl;
    intros [= <- <- <-] || intros [=]; auto.
Qed.

Lemma unparsed_ctx (r : @Request Args HandlerT TemplateT) :
  unparsed r -> ctx r = None.
Proof.
  induction 1 as [v b | r log err r' _ IH Hparse]; [reflexivity |].
  apply Request_Parse_failed in Hparse as [-> _]. exact IH.
Qed.

(** C1 as the code has it. On a request on which no [Parse] has completed
    successfully, [Verify] panics with its fixed message: it does not
    return, neither a boolean nor an error. The panic is raised before the
    template is consulted, and [Verify] writes nothing: it has no result
    but its outcome. *)
Theorem Verify_without_Parse_panics (r : @Request Args HandlerT TemplateT) :
  unparsed r ->
  Request_Verify r = Panic "Verify should be called after succesfull Parse" /\
  ~ exists b, Request_Verify r = Ret b.
Proof.
  intros H. apply unparsed_ctx in H. unfold Request_Verify. rewrite H.
  split; [reflexivity |]. intros [b Hb]. discriminate Hb.
Qed.

(** Where [parse] resolves a template address that the registry does not
    know, it returns the unknown-template error only if the account has a
    recorded template; otherwise formatting the error dereferences nil.
    The error wraps nothing. *)
Lemma parse_unknown_template loader (dec d1 d2 d3 d4 : Decoder)
    principal method account template :
  DecodeCompact8 dec = (Ok 0, d1) ->
  DecodeAddress d1 = (Ok principal, d2) ->
  DecodeCompact8 d2 = (Ok method, d3) ->
  loader principal = Ok account ->
  (if method =? 0 then DecodeAddress d3 = (Ok template, d4)
   else Template account = Some template /\ d4 = d3) ->
  registry_Get template = None ->
  snd (parse loader dec) =
  match Template account with
  | None => Panic nil_dereference
  | Some recorded =>
      Ret (Err (Errorf "unknown template %x" [ArgAddr recorded]), d4)
  end.
Proof.
  intros Hv Hp Hm Hl Ht Hr. unfold parse.
  rewrite Hv. cbn -[bind emit]. rewrite Hp, Hm, Hl, bind_emit.
  destruct (method =? 0).
  - rewrite Ht. cbn. rewrite Hr. now destruct (Template account).
  - destruct Ht as [Ht ->]. rewrite Ht. cbn. now rewrite Hr.
Qed.

End Requests.

(** *** Genesis *)

Lemma tx_rows_snoc tx a :
  tx_rows {| tx_db := tx_db tx; pending := pending tx ++ [a] |}
  = write_row (tx_rows tx) a.
Proof. unfold tx_rows. cbn. now rewrite foldl_app. Qed.

(** The loop of [ApplyGenesis] never crashes. It commits every given
    record, in order, exactly when no write and not the commit fails;
    otherwise it returns an error and commits nothing. *)
Lemma genesis_loop_cases genesis tx :
  exists log,
    (Forall (fun a => write_fault (tx_db tx) a = None) genesis /\
     commit_fault (tx_db tx) = None /\
     genesis_loop tx genesis =
     (log, Ret (None,
                Some {| rows := foldl write_row (tx_rows tx) genesis;
                        begin_fault := begin_fault (tx_db tx);
                        read_fault := read_fault (tx_db tx);
                        write_fault := write_fault (tx_db tx);
                        commit_fault := commit_fault (tx_db tx) |}))) \/
    (~ (Forall (fun a => write_fault (tx_db tx) a = None) genesis /\
        commit_fault (tx_db tx) = None) /\
     exists err, genesis_loop tx genesis = (log, Ret (Some err, None))).
Proof.
  revert tx. induction genesis as [| a rest IH]; intros tx.
  - cbn. unfold Tx_Commit.
    destruct (commit_fault (tx_db tx)) as [err |] eqn:Hc; exists [].
    + right. split; [intros [_ [=]] | now exists err].
    + left. repeat split; auto.
  - cbn [genesis_loop]. rewrite bind_emit. unfold accounts_Update.
    destruct (write_fault (tx_db tx) a) as [err |] eqn:Hw.
    + eexists. right. split; [| eexists; reflexivity].
      intros [Hall _]. apply Forall_cons in Hall as [Ha _]. congruence.
    + destruct (IH {| tx_db := tx_db tx; pending := pending tx ++ [a] |})
        as [log [(Hall & Hc & Hrun) | (Hnot & err & Hrun)]];
        rewrite Hrun; cbn [fst snd tx_db] in *; eexists.
      * left. split; [now apply Forall_cons |]. split; [exact Hc |].
        now rewrite tx_rows_snoc.
      * right. split; [| eexists; reflexivity].
        intros [Hall Hc]. apply Forall_cons in Hall as [_ Hall]. auto.
Qed.


(** *** The engine on concrete inputs *)

Import Fixture.

(** C1, the claim as stated fails: on a request fresh from [Validation],
    [Verify] does not return a result, it panics. *)
Lemma Verify_on_fresh_request_crashes :
  ctx (request vm0 (spend_tx 10 5 11 30)) = None /\
  ~ exists b, Request_Verify (request vm0 (spend_tx 10 5 11 30)) = Ret b.
Proof. split; [reflexivity |]. intros [b Hb]. discriminate Hb. Qed.

Lemma Verify_without_Parse_panics_witness :
  unparsed rejected_request /\
  Request_Verify rejected_request
  = Panic "Verify should be called after succesfull Parse".
Proof.
  assert (H : unparsed rejected_request).
  { eapply unparsed_failed; [apply (unparsed_fresh vm0 (map byte [1])) |].
    vm_compute. reflexivity. }
  split; [exact H |]. exact (proj1 (Verify_without_Parse_panics _ H)).
Defined.

Lemma Apply_returns_the_skipped_witness :
  snd (fst (Apply vm0 layer7 mixed_batch))
  = Ret (Ok [spend_tx 10 5 11 1; map byte [1]]) /\
  [spend_tx 10 5 11 1; map byte [1]] =
    map fst (filter (fun p => is_skipped (snd p))
               (zip mixed_batch (batch_verdicts (start vm0) mixed_batch))).
Proof.
  assert (H : snd (fst (Apply vm0 layer7 mixed_batch))
              = Ret (Ok [spend_tx 10 5 11 1; map byte [1]])).
  { vm_compute. reflexivity. }
  split; [exact H |].
  exact (proj1 (proj2 (Apply_returns_the_skipped _ _ _ _ H))).
Defined.

(** C3, the code on a store whose reads fail: the load failure that
    [parse] returns wraps [ErrInternal], yet [Apply] puts the transaction
    in the skipped list, returns no error and commits. *)
Theorem Apply_skips_on_load_failure :
  (exists err dec,
     snd (parse (StagedState_Get (start unreadable_vm)) (spend_tx 10 5 11 30))
     = Ret (Err err, dec) /\
     errors_Is err SInternal = true) /\
  verdict_of (start unreadable_vm) (spend_tx 10 5 11 30)
  = ParseFailed
      (Wrapf "failed to load state for principal %s: %w" [ArgAddr 10]
         (Wrapf "%w: disk I/O error" [] ErrInternal)) /\
  snd (fst (Apply unreadable_vm layer7 [spend_tx 10 5 11 30]))
  = Ret (Ok [spend_tx 10 5 11 30]).
Proof.
  split; [| split; vm_compute; reflexivity].
  exists (Wrapf "failed to load state for principal %s: %w" [ArgAddr 10]
            (Wrapf "%w: disk I/O error" [] ErrInternal)), (map byte [5; 11; 30]).
  split; vm_compute; reflexivity.
Qed.

(** C4, the claim as stated fails: the spend of 130 from a balance of
    100 fails in [Exec] with [ErrNoBalance], after the nonce was consumed;
    the account with the consumed nonce is staged, and committed with the
    batch. *)
Lemma failed_Exec_reaches_the_store :
  verdict_of (start vm0) (spend_tx 10 5 11 130) = ExecFailed ErrNoBalance /\
  ~ discards_failed_execution (start vm0) (spend_tx 10 5 11 130) /\
  snd (fst (Apply vm0 layer7 [spend_tx 10 5 11 130])) = Ret (Ok []) /\
  rows (db vm0) !! 10 = Some (wallet_account 10 100 5) /\
  rows (db (snd (Apply vm0 layer7 [spend_tx 10 5 11 130]))) !! 10
  = Some {| Layer := layer7; Addr := 10; Balance := 100; NonceCounter := 6;
            Template := Some 1; State := [] |}.
Proof.
  split; [vm_compute; reflexivity |]. split.
  - intros H. specialize (H ErrNoBalance). vm_compute in H.
    specialize (H eq_refl eq_refl). discriminate H.
  - repeat split; vm_compute; reflexivity.
Qed.

Lemma failed_Exec_is_logged_and_flushed_witness :
  errors_Is ErrNoBalance SInternal = false /\
  snd (apply_tx (start vm0) [] (spend_tx 10 5 11 130)) =
  Ret (Next {| ss_loader := ss_loader (start vm0);
               changed := [ {| Layer := {| Value := 0 |}; Addr := 10;
                               Balance := 100; NonceCounter := 6;
                               Template := Some 1; State := [] |} ] |} []).
Proof.
  split; [reflexivity |].
  pose (p := parse (StagedState_Get (start vm0)) (spend_tx 10 5 11 130)).
  assert (Hp : parse (StagedState_Get (start vm0)) (spend_tx 10 5 11 130) = p)
    by reflexivity.
  vm_compute in p. subst p.
  exact (f_equal snd
           (proj1 (failed_Exec_is_logged_and_flushed (start vm0) []
                     (spend_tx 10 5 11 130) _ _ _ _ _ _ ErrNoBalance
                     Hp eq_refl eq_refl eq_refl))).
Defined.

Lemma Apply_aborts_on_internal_Exec_witness :
  begin_fault (db vm0) = None /\
  snd (fst (Apply vm0 layer7
              ([spend_tx 10 5 11 30] ++ fault_tx 10 6 :: [spend_tx 10 7 11 1])))
  = Ret (Err (Wrapf "%w: out of resources" [] ErrInternal)) /\
  snd (Apply vm0 layer7
         ([spend_tx 10 5 11 30] ++ fault_tx 10 6 :: [spend_tx 10 7 11 1]))
  = vm0.
Proof.
  split; [reflexivity |].
  pose (l := snd (apply_loop (NewStagedState (Tx_Latest (opened vm0))) []
                    [spend_tx 10 5 11 30])).
  assert (Hl : snd (apply_loop (NewStagedState (Tx_Latest (opened vm0))) []
                      [spend_tx 10 5 11 30]) = l) by reflexivity.
  vm_compute in l. subst l.
  pose (p := snd (parse
                    (StagedState_Get
                       {| ss_loader := Tx_Latest (opened vm0);
                          changed := [ {| Layer := {| Value := 0 |}; Addr := 10;
                                          Balance := 70; NonceCounter := 6;
                                          Template := Some 1; State := [] |};
                                       {| Layer := {| Value := 0 |}; Addr := 11;
                                          Balance := 30; NonceCounter := 0;
                                          Template := None; State := [] |} ] |})
                    (fault_tx 10 6))).
  assert (Hp : snd (parse
                      (StagedState_Get
                         {| ss_loader := Tx_Latest (opened vm0);
                            changed := [ {| Layer := {| Value := 0 |}; Addr := 10;
                                            Balance := 70; NonceCounter := 6;
                                            Template := Some 1; State := [] |};
                                         {| Layer := {| Value := 0 |}; Addr := 11;
                                            Balance := 30; NonceCounter := 0;
                                            Template := None; State := [] |} ] |})
                      (fault_tx 10 6)) = p) by reflexivity.
  vm_compute in p. subst p.
  pose proof (Apply_aborts_on_internal_Exec vm0 layer7 [spend_tx 10 5 11 30]
                (fault_tx 10 6) [spend_tx 10 7 11 1] _ _ _ _ _ _ _
                (Wrapf "%w: out of resources" [] ErrInternal)
                eq_refl Hl Hp eq_refl eq_refl eq_refl) as (H1 & H2 & _).
  split; [exact H1 | exact H2].
Defined.

(** C6, the code on a spawn that names a template address the registry
    does not know, for a principal that has no template yet: [parse]
    dereferences the nil [account.Template] while it builds the error, and
    the panic goes through [Apply]. *)
Theorem parse_crashes_on_unknown_template_spawn :
  registry_Get 2 = None /\
  Database_Latest (db fresh_vm) 20 = Ok (empty_Account 20) /\
  Template (empty_Account 20) = None /\
  snd (parse (Database_Latest (db fresh_vm)) (spawn_tx 20 2 0))
  = Panic nil_dereference /\
  snd (fst (Apply fresh_vm layer7 [spawn_tx 20 2 0])) = Panic nil_dereference.
Proof. repeat split; vm_compute; reflexivity. Qed.

(** C7, the code on transactions whose template address is not in the
    registry. A spawn for a principal without a template: [Request.Parse]
    panics instead of returning an error. A spend from an account whose
    recorded template is unknown: the error returned is a plain formatted
    error, which does not wrap [ErrMalformed]. *)
Theorem Parse_of_unknown_template :
  snd (Request_Parse (request fresh_vm (spawn_tx 20 2 0)))
  = Panic nil_dereference /\
  (exists r,
     snd (Request_Parse (request foreign_vm (spend_tx 12 0 11 1)))
     = Ret (Err (Errorf "unknown template %x" [ArgAddr 2]), r)) /\
  errors_Is (Errorf "unknown template %x" [ArgAddr 2]) SMalformed = false.
Proof.
  split; [vm_compute; reflexivity |]. split; [| reflexivity].
  exists {| vm := foreign_vm; raw := spend_tx 12 0 11 1; ctx := None;
            decoder := map byte [0; 11; 1] |}.
  vm_compute. reflexivity.
Qed.


Lemma Apply_stamps_the_layer_witness :
  snd (fst (Apply vm0 layer7 [spend_tx 10 5 11 30])) = Ret (Ok []) /\
  map_to_list (rows (db (snd (Apply vm0 layer7 [spend_tx 10 5 11 30])))) =
  [(10, {| Layer := layer7; Addr := 10; Balance := 70; NonceCounter := 6;
           Template := Some 1; State := [] |});
   (11, {| Layer := layer7; Addr := 11; Balance := 30; NonceCounter := 0;
           Template := None; State := [] |})] /\
  exists ss log accs tx',
    snd (apply_loop (NewStagedState (Tx_Latest (opened vm0))) []
           [spend_tx 10 5 11 30]) = Ret (Next ss []) /\
    iterate_accounts (flush_account layer7) (changed ss) (opened vm0, None)
    = (log, Ret (accs, (tx', None))) /\
    pending tx' = map (set_Layer layer7) (changed ss) /\
    Forall (fun a => Layer a = layer7) (pending tx').
Proof.
  assert (H : snd (fst (Apply vm0 layer7 [spend_tx 10 5 11 30])) = Ret (Ok []))
    by (vm_compute; reflexivity).
  split; [exact H |]. split; [vm_compute; reflexivity |].
  destruct (Apply_stamps_the_layer vm0 layer7 _ _ H)
    as (ss & log & accs & tx' & H1 & H2 & H3 & H4 & _).
  exists ss, log, accs, tx'. auto.
Defined.



(** *** Connections *)

Section Connections.

Context {PublicKey NetworkSession : Type}.
Context {W : @Net.Surroundings PublicKey NetworkSession}.

Notation "'conn'" := (@Net.FormattedConnection PublicKey NetworkSession)
  (only parsing).

Lemma closings_app tr tr' :
  Net.closings (tr ++ tr') = (Net.closings tr + Net.closings tr')%nat.
Proof. unfold Net.closings. now rewrite List.filter_app, length_app. Qed.

Lemma publications_app tr tr' :
  Net.publications (tr ++ tr')
  = (Net.publications tr + Net.publications tr')%nat.
Proof. unfold Net.publications. now rewrite List.filter_app, length_app. Qed.

Lemma closings_cons e tr :
  Net.closings (e :: tr)
  = ((if Net.is_CloseSocket e then 1 else 0) + Net.closings tr)%nat.
Proof. unfold Net.closings. simpl. now destruct (Net.is_CloseSocket e). Qed.

Lemma publications_cons e tr :
  Net.publications (e :: tr)
  = ((if Net.is_PublishClosingConnection e then 1 else 0)
     + Net.publications tr)%nat.
Proof.
  unfold Net.publications. simpl.
  now destruct (Net.is_PublishClosingConnection e).
Qed.

Ltac count_events :=
  rewrite ?closings_app, ?publications_app, ?closings_cons, ?publications_cons;
  change (Net.closings []) with 0%nat;
  change (Net.publications []) with 0%nat;
  cbn [Net.is_CloseSocket Net.is_PublishClosingConnection].

Lemma written_app tr tr' :
  Net.written (tr ++ tr') = Net.written tr ++ Net.written tr'.
Proof.
  induction tr as [| e tr IH]; [reflexivity |].
  destruct e; simpl; now rewrite IH.
Qed.

Lemma enqueued_app tr tr' :
  Net.enqueued (tr ++ tr') = Net.enqueued tr ++ Net.enqueued tr'.
Proof.
  induction tr as [| e tr IH]; [reflexivity |].
  destruct e; simpl; now rewrite IH.
Qed.

(** The three ways [closeUnlocked] returns. *)
Lemma closeUnlocked_cases (c : conn) tr cerr c' tr' :
  Net.closeUnlocked c tr = Ret (cerr, c', tr') ->
  (Net.closed c = true /\ cerr = Some (Net.Sentinel Net.ErrAlreadyClosed) /\
   c' = c /\ tr' = tr) \/
  (Net.closed c = false /\ cerr = Net.Close_err tr /\
   c' = Net.set_closed c /\
   exists tail, tr' = tr ++ Net.CloseSocket :: tail /\
                Net.closings tail = 0%nat /\ Net.publications tail = 0%nat /\
                Net.written tail = [] /\ Net.enqueued tail = []).
Proof.
  unfold Net.closeUnlocked. destruct (Net.closed c) eqn:Hc.
  - intros [= <- <- <-]. now left.
  - destruct (Net.Close_err tr) as [err |] eqn:He.
    + destruct (Net.Key_String _); intros [= <- <- <-]. right.
      repeat split; auto. eexists. rewrite <- app_assoc. split; [reflexivity |].
      now repeat split.
    + intros [= <- <- <-]. right. repeat split; auto.
      exists []. now repeat split.
Qed.

Lemma Close_closes (c : conn) tr cerr c' tr' :
  Net.Close c tr = Ret (cerr, c', tr') -> Net.closed c' = true.
Proof.
  intros H. apply closeUnlocked_cases in H
    as [(Hc & _ & -> & _) | (_ & _ & -> & _)]; auto.
Qed.

(** What [SendNow] returns tells what it did. *)
Lemma SendNow_cases (c : conn) tr m err c' tr' :
  Net.SendNow c tr m = Ret (err, c', tr') ->
  (Net.closed c = true /\ err = Some (Net.New "connection was closed") /\
   c' = c /\ tr' = tr) \/
  (Net.closed c = false /\ err = None /\ c' = c /\
   tr' = tr ++ [Net.SetWriteDeadline (Net.deadline c); Net.WriteRecord m]) \/
  (Net.closed c = false /\ (exists e, err = Some e) /\
   c' = Net.set_closed c /\
   exists tail, tr' = tr ++ [Net.SetWriteDeadline (Net.deadline c);
                             Net.WriteRecord m; Net.CloseSocket] ++ tail /\
                Net.closings tail = 0%nat /\
                (Net.publications tail <= 1)%nat /\
                Net.written tail = []).
Proof.
  unfold Net.SendNow. destruct (Net.closed c) eqn:Hc.
  - intros [= <- <- <-]. now left.
  - intros H. right.
    destruct (Net.WriteRecord_err _ m) as [e |] eqn:He.
    2: { injection H as <- <- <-. left. rewrite <- app_assoc.
         now repeat split. }
    destruct (Net.closeUnlocked c _) as [[[cerr c1] tr1] | p] eqn:Hclose;
      [| discriminate].
    injection H as <- <- <-. right.
    apply closeUnlocked_cases in Hclose
      as [(Hc' & _) | (_ & _ & -> & tail & -> & H1 & H2 & H3 & _)];
      [congruence |].
    repeat split; eauto.
    destruct (Net.is_not_ErrAlreadyClosed cerr).
    + eexists (tail ++ [_]). rewrite <- !app_assoc. split; [reflexivity |].
      rewrite written_app, H3. count_events. rewrite H1, H2.
      repeat split; lia.
    + exists tail. rewrite <- !app_assoc. split; [reflexivity |].
      rewrite H1, H2, H3. repeat split; lia.
Qed.

(** One call keeps the count of the socket's closings in step with
    [closed], and never un-closes. *)
Lemma do_call_invariant (k : @Net.call PublicKey NetworkSession)
    (c : conn) tr a c' tr' :
  Net.do_call k c tr = Ret (a, c', tr') ->
  Net.closings tr = (if Net.closed c then 1 else 0)%nat ->
  (Net.publications tr <= Net.closings tr)%nat ->
  Net.closings tr' = (if Net.closed c' then 1 else 0)%nat /\
  (Net.publications tr' <= Net.closings tr')%nat /\
  (Net.closed c = true -> Net.closed c' = true).
Proof.
  intros H Hcl Hpub. destruct k as [m | | | s | key]; simpl in H.
  - destruct (Net.SendNow c tr m) as [[[err c1] tr1] | p] eqn:Hs;
      [| discriminate].
    injection H as <- <- <-.
    apply SendNow_cases in Hs
      as [(Hc & _ & -> & ->) |
          [(Hc & _ & -> & ->) |
           (Hc & _ & -> & tail & -> & H1 & H2 & _)]]; auto.
    + count_events. rewrite Hc in *. repeat split; auto; lia.
    + count_events. rewrite Hc in *. cbn [Net.closed Net.set_closed].
      rewrite H1. repeat split; auto; lia.
  - destruct (Net.Close c tr) as [[[err c1] tr1] | p] eqn:Hs; [| discriminate].
    injection H as <- <- <-.
    apply closeUnlocked_cases in Hs
      as [(Hc & _ & -> & ->) | (Hc & _ & -> & tail & -> & H1 & H2 & _)]; auto.
    count_events. rewrite Hc in *. cbn [Net.closed Net.set_closed].
    rewrite H1, H2. repeat split; auto; lia.
  - injection H as <- <- <-. auto.
  - injection H as <- <- <-. auto.
  - injection H as <- <- <-. auto.
Qed.

Lemma do_calls_cons_inv (k : @Net.call PublicKey NetworkSession) ks
    (c : conn) tr answers c' tr' :
  Net.do_calls (k :: ks) c tr = Ret (answers, c', tr') ->
  exists a c1 tr1 rest,
    Net.do_call k c tr = Ret (a, c1, tr1) /\
    Net.do_calls ks c1 tr1 = Ret (rest, c', tr') /\
    answers = a :: rest.
Proof.
  simpl.
  destruct (Net.do_call k c tr) as [[[a c1] tr1] | p] eqn:Hk; [| discriminate].
  destruct (Net.do_calls ks c1 tr1) as [[[rest c2] tr2] | p] eqn:Hks;
    [| discriminate].
  intros [= <- <- <-]. now exists a, c1, tr1, rest.
Qed.

(** X1. Over any sequence of [SendNow], [Close], [Closed] and setter
    calls on a connection that is open and whose socket was not closed,
    the socket is closed at most once, exactly when the connection ends up
    closed, and the closing of the connection is published at most once. *)
Theorem socket_is_closed_at_most_once
    (ks : list (@Net.call PublicKey NetworkSession)) (c : conn)
    tr answers c' tr' :
  Net.closed c = false ->
  Net.closings tr = 0%nat ->
  Net.publications tr = 0%nat ->
  Net.do_calls ks c tr = Ret (answers, c', tr') ->
  Net.closings tr' = (if Net.closed c' then 1 else 0)%nat /\
  (Net.publications tr' <= Net.closings tr')%nat.
Proof.
  intros Hc Hcl Hpub.
  assert (Hinv : Net.closings tr = (if Net.closed c then 1 else 0)%nat)
    by now rewrite Hc.
  assert (Hle : (Net.publications tr <= Net.closings tr)%nat) by lia.
  clear Hc Hcl Hpub. revert c tr answers Hinv Hle.
  induction ks as [| k ks IH]; intros c tr answers Hinv Hle H.
  - injection H as <- <- <-. auto.
  - apply do_calls_cons_inv in H as (a & c1 & tr1 & rest & Hk & Hks & _).
    destruct (do_call_invariant _ _ _ _ _ _ Hk Hinv Hle) as (H1 & H2 & _).
    exact (IH _ _ _ H1 H2 Hks).
Qed.

Lemma do_calls_when_closed
    (ks : list (@Net.call PublicKey NetworkSession)) (c : conn) tr :
  Net.closed c = true ->
  exists c',
    Net.do_calls ks c tr = Ret (map Net.answer_when_closed ks, c', tr) /\
    Net.closed c' = true.
Proof.
  revert c. induction ks as [| k ks IH]; intros c Hc.
  - exists c. auto.
  - assert (Hk : exists c1, Net.do_call k c tr
                            = Ret (Net.answer_when_closed k, c1, tr) /\
                            Net.closed c1 = true).
    { destruct k; simpl; unfold Net.SendNow, Net.Close, Net.closeUnlocked,
        Net.Closed; rewrite ?Hc; eauto. }
    destruct Hk as (c1 & Hk & Hc1). destruct (IH c1 Hc1) as (c' & Hks & Hc').
    exists c'. simpl. now rewrite Hk, Hks.
Qed.

(** X2. A closed connection is inert: every further call returns without
    a panic, [SendNow] with the error "connection was closed", [Close]
    with [ErrAlreadyClosed], [Closed] with true; nothing more is done to
    the socket or the network layer, and the connection stays closed. *)
Theorem closed_connection_is_inert
    (ks : list (@Net.call PublicKey NetworkSession)) (c : conn) tr :
  Net.closed c = true ->
  exists c',
    Net.do_calls ks c tr = Ret (map Net.answer_when_closed ks, c', tr) /\
    Net.closed c' = true.
Proof. apply do_calls_when_closed. Qed.

Lemma SendNow_result (c : conn) tr m err c' tr' :
  Net.SendNow c tr m = Ret (err, c', tr') ->
  match err with
  | None =>
      Net.closed c = false /\ c' = c /\
      tr' = tr ++ [Net.SetWriteDeadline (Net.deadline c); Net.WriteRecord m]
  | Some _ =>
      Net.closed c' = true /\
      Net.written tr' = Net.written tr ++ (if Net.closed c then [] else [m])
  end.
Proof.
  intros H. apply SendNow_cases in H
    as [(Hc & -> & -> & ->) |
        [(Hc & -> & -> & ->) |
         (Hc & [e ->] & -> & tail & -> & _ & _ & Hw)]].
  - rewrite Hc, app_nil_r. auto.
  - auto.
  - rewrite Hc. split; [reflexivity |].
    rewrite written_app. simpl. now rewrite Hw.
Qed.

(** X3. [SendNow] returns nil only after it set the write deadline and
    handed the record to the writer of an open connection, which stays
    open; whenever it returns an error the connection is closed
    afterwards, and at most the one record was handed to the writer. *)
Theorem SendNow_error_leaves_closed (c : conn) tr m err c' tr' :
  Net.SendNow c tr m = Ret (err, c', tr') ->
  match err with
  | None =>
      Net.closed c = false /\ c' = c /\
      tr' = tr ++ [Net.SetWriteDeadline (Net.deadline c); Net.WriteRecord m]
  | Some _ =>
      Net.closed c' = true /\
      Net.written tr' = Net.written tr ++ (if Net.closed c then [] else [m])
  end.
Proof. apply SendNow_result. Qed.

Lemma acknowledged_when_closed (ks : list (@Net.call PublicKey NetworkSession)) :
  Net.acknowledged ks (map Net.answer_when_closed ks) = [].
Proof. induction ks as [| [m | | | s | key] ks IH]; simpl; auto. Qed.

(** X4. Over any sequence of calls, the records handed to the writer are
    the messages of the [SendNow] calls that returned nil, in the order of
    the calls, followed by at most one more record, the one whose write
    failed; nothing is written once the connection is closed. *)
Theorem wire_carries_the_acknowledged
    (ks : list (@Net.call PublicKey NetworkSession)) (c : conn)
    tr answers c' tr' :
  Net.do_calls ks c tr = Ret (answers, c', tr') ->
  exists tail,
    Net.written tr' = Net.written tr ++ Net.acknowledged ks answers ++ tail /\
    (length tail <= 1)%nat /\
    (tail <> [] -> Net.closed c' = true).
Proof.
  revert c tr answers. induction ks as [| k ks IH]; intros c tr answers H.
  - injection H as <- <- <-. exists []. rewrite !app_nil_r. simpl.
    repeat split; auto; lia.
  - apply do_calls_cons_inv in H as (a & c1 & tr1 & rest & Hk & Hks & ->).
    destruct k as [m | | | s | key]; simpl in Hk.
    + destruct (Net.SendNow c tr m) as [[[err c2] tr2] | p] eqn:Hs;
        [| discriminate].
      injection Hk as <- <- <-.
      apply SendNow_result in Hs.
      destruct err as [e |].
      * destruct Hs as [Hc1 Hw].
        destruct (do_calls_when_closed ks c2 tr2 Hc1)
          as (c3 & Hks' & Hc3).
        rewrite Hks' in Hks. injection Hks as <- <- <-.
        cbn [Net.acknowledged]. rewrite acknowledged_when_closed, Hw.
        exists (if Net.closed c then [] else [m]).
        destruct (Net.closed c); simpl; repeat split; auto; lia.
      * destruct Hs as (Hc & -> & ->).
        destruct (IH _ _ _ Hks) as (tail & Hw & Hlen & Hcl).
        exists tail. rewrite Hw, written_app. simpl.
        rewrite <- !app_assoc. auto.
    + destruct (Net.Close c tr) as [[[err c2] tr2] | p] eqn:Hs;
        [| discriminate].
      injection Hk as <- <- <-.
      destruct (IH _ _ _ Hks) as (tail & Hw & Hlen & Hcl).
      exists tail. rewrite Hw. split; [| auto].
      apply closeUnlocked_cases in Hs
        as [(_ & _ & _ & ->) | (_ & _ & _ & t & -> & _ & _ & Ht & _)];
        [reflexivity |].
      rewrite written_app. simpl. now rewrite Ht, app_nil_r.
    + injection Hk as <- <- <-.
      destruct (IH _ _ _ Hks) as (tail & Hw & Hlen & Hcl).
      exists tail. rewrite Hw. auto.
    + injection Hk as <- <- <-.
      destruct (IH _ _ _ Hks) as (tail & Hw & Hlen & Hcl).
      exists tail. rewrite Hw. auto.
    + injection Hk as <- <- <-.
      destruct (IH _ _ _ Hks) as (tail & Hw & Hlen & Hcl).
      exists tail. rewrite Hw. auto.
Qed.

Lemma Close__closes (c : conn) tr c' tr' :
  Net.Close_ c tr = Ret (c', tr') -> Net.closed c' = true.
Proof.
  unfold Net.Close_.
  destruct (Net.Close c tr) as [[[cerr c1] tr1] | p] eqn:H; [| discriminate].
  intros [= <- <-]. exact (Close_closes _ _ _ _ _ H).
Qed.

(** X5. [setupIncoming] returns nil only when a message arrived without
    a read error, within the size limit (or with the limit switched off),
    on a connection without a session, and the network layer accepted it.
    Every error it returns leaves the connection closed, but for a message
    over the size limit: then the connection is left as it was, open if
    it was open. *)
Theorem setupIncoming_outcomes (c : conn) tr a res c' tr' :
  Net.setupIncoming c tr a = Ret (res, c', tr') ->
  match res with
  | None =>
      exists msg,
        a = Net.Arrived msg None /\
        Net.session c = None /\
        (Net.msgSizeLimit c = Net.UnlimitedMsgSize \/
         (Z.of_nat (length msg) <= Net.msgSizeLimit c)%Z) /\
        Net.HandlePreSessionIncomingMessage tr c msg = (None, c')
  | Some e =>
      Net.closed c' = true \/
      (e = Net.Sentinel Net.ErrMsgExceededLimit /\ c' = c /\
       exists msg,
         a = Net.Arrived msg None /\
         Net.msgSizeLimit c <> Net.UnlimitedMsgSize /\
         (Net.msgSizeLimit c < Z.of_nat (length msg))%Z)
  end.
Proof.
  unfold Net.setupIncoming. destruct a as [msg [err |] |].
  - destruct (Net.Close_ c tr) as [[c1 tr1] | p] eqn:Hcl; [| discriminate].
    intros [= <- <- <-]. left. exact (Close__closes _ _ _ _ Hcl).
  - destruct (negb (Net.msgSizeLimit c =? Net.UnlimitedMsgSize)%Z
              && (Net.msgSizeLimit c <? Z.of_nat (length msg))%Z) eqn:Hbig.
    + intros [= <- <- <-]. right.
      apply andb_true_iff in Hbig as [Hne Hlt].
      apply negb_true_iff, Z.eqb_neq in Hne. apply Z.ltb_lt in Hlt.
      repeat split; auto. now exists msg.
    + assert (Hfits : Net.msgSizeLimit c = Net.UnlimitedMsgSize \/
                       (Z.of_nat (length msg) <= Net.msgSizeLimit c)%Z).
      { apply andb_false_iff in Hbig as [Heq | Hge].
        - left. now apply negb_false_iff, Z.eqb_eq in Heq.
        - right. apply Z.ltb_ge in Hge. exact Hge. }
      destruct (Net.session c) as [s |] eqn:Hs.
      * destruct (Net.Close_ c tr) as [[c1 tr1] | p] eqn:Hcl; [| discriminate].
        intros [= <- <- <-]. left. exact (Close__closes _ _ _ _ Hcl).
      * destruct (Net.HandlePreSessionIncomingMessage tr c msg)
          as [[err |] c1] eqn:Hh.
        -- destruct (Net.Close_ c1 _) as [[c2 tr2] | p] eqn:Hcl;
             [| discriminate].
           intros [= <- <- <-]. left. exact (Close__closes _ _ _ _ Hcl).
        -- intros [= <- <- <-]. exists msg. auto.
  - destruct (Net.Close_ c tr) as [[c1 tr1] | p] eqn:Hcl; [| discriminate].
    intros [= <- <- <-]. left. exact (Close__closes _ _ _ _ Hcl).
Qed.

Lemma read_loop_enqueued (c : conn) reads tr final :
  Net.enqueued (snd (Net.read_loop c tr reads final)) =
  Net.enqueued tr ++ (match Net.session c with Some _ => reads | None => [] end) /\
  fst (Net.read_loop c tr reads final) =
  (match Net.session c, reads with
   | None, _ :: _ => Net.Sentinel Net.ErrTriedToSetupExistingConn
   | _, _ => final
   end) /\
  Net.closings (snd (Net.read_loop c tr reads final)) = Net.closings tr /\
  Net.publications (snd (Net.read_loop c tr reads final)) = Net.publications tr.
Proof.
  revert tr. induction reads as [| buf reads IH]; intros tr; simpl.
  - destruct (Net.session c); rewrite app_nil_r; auto.
  - destruct (Net.session c) as [s |] eqn:Hs.
    + destruct (IH (Net.publish c tr buf)) as (H1 & H2 & H3 & H4).
      rewrite H1, H2, H3, H4. unfold Net.publish.
      rewrite enqueued_app. count_events. simpl.
      rewrite <- app_assoc. repeat split; auto; lia.
    + rewrite app_nil_r. auto.
Qed.


(** X7. [sendRoutine] answers the queued messages in order. Either every
    message was written and answered with nil, or the routine stopped at
    the first message whose [SendNow] failed: the messages before it were
    answered with nil, it was answered with the error, the connection is
    closed, and the messages behind it are neither written nor answered. *)
Theorem sendRoutine_stops_at_first_failure (c : conn) tr queue answers c' tr' :
  Net.sendRoutine c tr queue = Ret (answers, c', tr') ->
  (answers = map (fun _ => None) queue /\
   Net.written tr' = Net.written tr ++ queue /\ c' = c) \/
  (exists k e,
     (k < length queue)%nat /\
     answers = replicate k None ++ [Some e] /\
     Net.closed c' = true /\
     Net.written tr' =
       Net.written tr ++ take (if Net.closed c then 0 else S k) queue).
Proof.
  revert c tr answers. induction queue as [| b queue IH]; intros c tr answers.
  - intros [= <- <- <-]. left. now rewrite app_nil_r.
  - simpl.
    destruct (Net.SendNow c tr b) as [[[err c1] tr1] | p] eqn:Hs;
      [| discriminate].
    apply SendNow_result in Hs. destruct err as [e |].
    + intros [= <- <- <-]. right. exists 0%nat, e. destruct Hs as [Hc Hw].
      split; [lia |]. split; [reflexivity |]. split; [exact Hc |].
      rewrite written_app. simpl. rewrite app_nil_r, Hw.
      now destruct (Net.closed c).
    + destruct Hs as (Hc & -> & ->).
      destruct (Net.sendRoutine c _ queue) as [[[rest c2] tr2] | p] eqn:Hr;
        [| discriminate].
      intros [= <- <- <-].
      apply IH in Hr as [(-> & Hw & ->) | (k & e & Hk & -> & Hcl & Hw)].
      * left. rewrite Hw, !written_app. simpl.
        rewrite <- !app_assoc. auto.
      * right. exists (S k), e. rewrite Hc in *.
        split; [lia |]. split; [reflexivity |]. split; [exact Hcl |].
        rewrite Hw, !written_app. simpl. now rewrite <- !app_assoc.
Qed.

End Connections.

(** *** More on parse, requests and Apply *)

Section MoreEngine.

Context {Args HandlerT TemplateT : Type}.
Context {E : @Collaborators Args HandlerT TemplateT}.

(** Everything a successful [parse] went through. *)
Lemma parse_Ok_inv loader (dec : Decoder) log hdr
    (c : @Context Args HandlerT TemplateT) args d' :
  parse loader dec = (log, Ret (Ok (hdr, c, args), d')) ->
  exists d1 principal d2 method d3 account template d4 handler hdr0 tp maxspend,
    DecodeCompact8 dec = (Ok 0, d1) /\
    DecodeAddress d1 = (Ok principal, d2) /\
    DecodeCompact8 d2 = (Ok method, d3) /\
    loader principal = Ok account /\
    (if method =? 0 then DecodeAddress d3 = (Ok template, d4)
     else Template account = Some template /\ d4 = d3) /\
    registry_Get template = Some handler /\
    Handler_Parse handler
      {| Loader := loader; Handler := handler; CtxTemplate := None;
         CtxAccount := account; CtxPrincipal := principal; Method := method;
         CtxHeader := zero_Header; CtxArgs := None; Touched := [] |}
      method d4 = (Ok (hdr0, args), d') /\
    Handler_Init handler method args (State account) = Ok tp /\
    Template_MaxSpend tp method args = Ok maxspend /\
    hdr = set_MaxSpend maxspend (set_Principal principal hdr0) /\
    c = {| Loader := loader; Handler := handler; CtxTemplate := Some tp;
           CtxAccount := account; CtxPrincipal := principal; Method := method;
           CtxHeader := set_Principal principal hdr0; CtxArgs := Some args;
           Touched := [] |} /\
    log = [ {| lvl := Debug; text := "loaded account state";
               fields := [FAccount account] |} ].
Proof.
  unfold parse.
  destruct (DecodeCompact8 dec) as [[version | e] d1] eqn:Hv;
    [| discriminate].
  destruct (version =? 0) eqn:Hz; [| discriminate]. apply N.eqb_eq in Hz.
  subst version. cbn [negb].
  destruct (DecodeAddress d1) as [[principal | e] d2] eqn:Hp; [| discriminate].
  destruct (DecodeCompact8 d2) as [[method | e] d3] eqn:Hm; [| discriminate].
  destruct (loader principal) as [account | e] eqn:Hl; [| discriminate].
  rewrite bind_emit.
  set (resolved := if method =? 0 then _ else _).
  destruct resolved as [[[template |] | e] d4] eqn:Hr; try discriminate.
  destruct (registry_Get template) as [handler |] eqn:Hg.
  2: { destruct (Template account); discriminate. }
  destruct (Handler_Parse handler _ method d4) as [[[hdr0 a] | e] d5] eqn:Hh;
    [| discriminate].
  destruct (Handler_Init handler method a (State account)) as [tp | e] eqn:Hi;
    [| discriminate].
  cbn [Method set_Template set_Header set_Args].
  destruct (Template_MaxSpend tp method a) as [maxspend | e] eqn:Hs;
    [| discriminate].
  cbn. intros [= <- <- <- <- <-].
  exists d1, principal, d2, method, d3, account, template, d4, handler, hdr0,
    tp, maxspend.
  repeat split; auto.
  subst resolved. destruct (method =? 0).
  - destruct (DecodeAddress d3) as [[t | e] d6]; now inversion Hr.
  - now inversion Hr.
Qed.

(** X8. [parse] classifies nothing by itself: an error it returns
    matches a package-level error of core (under [errors.Is]) only if an
    error returned by a decoder, the loader, the handler or the template
    does. In particular the errors it builds for an unsupported version,
    an account that is not spawned and an unknown template match neither
    [ErrMalformed] nor [ErrNotSpawned] nor [ErrInternal]. *)
Theorem parse_adds_no_classification
    (t : sentinel) loader (dec : Decoder) log e d' :
  (forall d e0 d0, DecodeCompact8 d = (Err e0, d0) -> errors_Is e0 t = false) ->
  (forall d e0 d0, DecodeAddress d = (Err e0, d0) -> errors_Is e0 t = false) ->
  (forall a e0, loader a = Err e0 -> errors_Is e0 t = false) ->
  (forall h c m d e0 d0,
     Handler_Parse h c m d = (Err e0, d0) -> errors_Is e0 t = false) ->
  (forall h m a st e0, Handler_Init h m a st = Err e0 -> errors_Is e0 t = false) ->
  (forall tp m a e0,
     Template_MaxSpend tp m a = Err e0 -> errors_Is e0 t = false) ->
  parse loader dec = (log, Ret (Err e, d')) ->
  errors_Is e t = false.
Proof.
  intros Hc8 Haddr Hload Hparse Hinit Hspend. unfold parse.
  destruct (DecodeCompact8 dec) as [[version | e0] d1] eqn:Hv.
  2: { intros [= <- <- <-]. eauto. }
  destruct (version =? 0) eqn:Hz; cbn [negb].
  2: { now intros [= <- <- <-]. }
  destruct (DecodeAddress d1) as [[principal | e0] d2] eqn:Hp.
  2: { intros [= <- <- <-]. simpl. eauto. }
  destruct (DecodeCompact8 d2) as [[method | e0] d3] eqn:Hm.
  2: { intros [= <- <- <-]. simpl. eauto. }
  destruct (loader principal) as [account | e0] eqn:Hl.
  2: { intros [= <- <- <-]. simpl. eauto. }
  rewrite bind_emit.
  set (resolved := if method =? 0 then _ else _).
  assert (Hres : forall e0 d0, resolved = (Err e0, d0) -> errors_Is e0 t = false).
  { subst resolved. intros e0 d0. destruct (method =? 0); [| discriminate].
    destruct (DecodeAddress d3) as [[tpl | e1] d4] eqn:Ht; [discriminate |].
    intros [= <- <-]. simpl. eauto. }
  destruct resolved as [[[template |] | e0] d4] eqn:Hr.
  3: { cbn. intros [= <- <- <-]. eauto. }
  2: { cbn. now intros [= <- <- <-]. }
  destruct (registry_Get template) as [handler |] eqn:Hg.
  2: { destruct (Template account); [| discriminate].
       cbn. now intros [= <- <- <-]. }
  destruct (Handler_Parse handler _ method d4) as [[[hdr0 a] | e0] d5] eqn:Hh.
  2: { cbn. intros [= <- <- <-]. eauto. }
  destruct (Handler_Init handler method a (State account)) as [tp | e0] eqn:Hi.
  2: { cbn. intros [= <- <- <-]. eauto. }
  cbn [Method set_Template set_Header set_Args].
  destruct (Template_MaxSpend tp method a) as [maxspend | e0] eqn:Hs.
  - discriminate.
  - cbn. intros [= <- <- <-]. eauto.
Qed.

(** X9. [parse] succeeds only for a transaction whose template address
    the registry knows, and the handler in the context is the registry's
    handler for it. For a method other than 0 that address is the one
    recorded in the principal's account, so the account is spawned. The
    account in the context is the one the loader returned for the
    principal, and the principal of the header is the one decoded. *)
Theorem parse_accepts_registered_templates_only
    loader (dec : Decoder) log hdr (c : @Context Args HandlerT TemplateT)
    args d' :
  parse loader dec = (log, Ret (Ok (hdr, c, args), d')) ->
  loader (CtxPrincipal c) = Ok (CtxAccount c) /\
  Principal hdr = CtxPrincipal c /\
  Loader c = loader /\
  exists template,
    registry_Get template = Some (Handler c) /\
    (Method c <> 0 -> Template (CtxAccount c) = Some template).
Proof.
  intros H. apply parse_Ok_inv in H
    as (d1 & principal & d2 & method & d3 & account & template & d4 & handler
        & hdr0 & tp & maxspend & _ & _ & _ & Hl & Ht & Hg & _ & _ & _
        & -> & -> & _).
  cbn. repeat split; auto. exists template. split; [exact Hg |].
  intros Hm. apply N.eqb_neq in Hm. rewrite Hm in Ht. tauto.
Qed.

(** X10. After a successful [parse], the returned header carries the
    max-spend computed by the template, while the header stored in the
    context is the copy taken before: it agrees with the returned header
    on principal, method and nonce, and keeps the max-spend the handler's
    [Parse] returned. The template in the context is the one [Init]
    returned, and the arguments are the parsed ones. *)
Theorem parse_header_and_context_header
    loader (dec : Decoder) log hdr (c : @Context Args HandlerT TemplateT)
    args d' :
  parse loader dec = (log, Ret (Ok (hdr, c, args), d')) ->
  Principal (CtxHeader c) = Principal hdr /\
  HMethod (CtxHeader c) = HMethod hdr /\
  HNonce (CtxHeader c) = HNonce hdr /\
  hdr = set_MaxSpend (MaxSpend hdr) (CtxHeader c) /\
  CtxArgs c = Some args /\
  exists tp hdr0 d,
    CtxTemplate c = Some tp /\
    Handler_Init (Handler c) (Method c) args (State (CtxAccount c)) = Ok tp /\
    Template_MaxSpend tp (Method c) args = Ok (MaxSpend hdr) /\
    fst (Handler_Parse (Handler c)
           {| Loader := loader; Handler := Handler c; CtxTemplate := None;
              CtxAccount := CtxAccount c; CtxPrincipal := CtxPrincipal c;
              Method := Method c; CtxHeader := zero_Header; CtxArgs := None;
              Touched := [] |} (Method c) d) = Ok (hdr0, args) /\
    MaxSpend (CtxHeader c) = MaxSpend hdr0.
Proof.
  intros H. apply parse_Ok_inv in H
    as (d1 & principal & d2 & method & d3 & account & template & d4 & handler
        & hdr0 & tp & maxspend & _ & _ & _ & _ & _ & _ & Hh & Hi & Hs
        & -> & -> & _).
  cbn. repeat split; auto. exists tp, hdr0, d4. rewrite Hh. auto.
Qed.

(** X11. After a [Parse] that returned a header, [Verify] does not
    panic: it returns what the template's [Verify] returns on the stored
    context and the raw bytes of the request. A later [Parse] that fails
    (the decoder has been consumed) leaves that context in place, so
    [Verify] still returns the same. *)
Theorem Verify_after_Parse (r : @Request Args HandlerT TemplateT) log hdr r' :
  Request_Parse r = (log, Ret (Ok hdr, r')) ->
  raw r' = raw r /\
  (exists c tp,
     ctx r' = Some c /\ CtxTemplate c = Some tp /\
     Request_Verify r' = Ret (Template_Verify tp c (raw r))) /\
  (forall log2 e r'',
     Request_Parse r' = (log2, Ret (Err e, r'')) ->
     Request_Verify r'' = Request_Verify r').
Proof.
  unfold Request_Parse at 1.
  destruct (parse _ (decoder r)) as [l [[[[[h c] a] | e] d] | msg]] eqn:Hp;
    simpl; intros [= <- <- <-] || intros [=].
  apply parse_Ok_inv in Hp
    as (d1 & principal & d2 & method & d3 & account & template & d4 & handler
        & hdr0 & tp & maxspend & _ & _ & _ & _ & _ & _ & _ & _ & _
        & _ & -> & _).
  split; [reflexivity |]. split.
  - eexists _, tp. split; [reflexivity |]. split; reflexivity.
  - intros log2 e r'' H. apply Request_Parse_failed in H as (Hc & _ & Hr).
    unfold Request_Verify. now rewrite Hc, Hr.
Qed.

Lemma apply_tx_Return ss sk (tx : bytes) e :
  snd (apply_tx ss sk tx) = Ret (Return e) -> errors_Is e SInternal = true.
Proof.
  destruct (parse (StagedState_Get ss) tx)
    as [log [[[[[hdr c] args] | err] dec] | msg]] eqn:Hparse.
  - destruct (NextNonce (CtxAccount c) =? Counter (HNonce (CtxHeader c)))
      eqn:Hnonce.
    + destruct (Handler_Exec (Handler c) c (Method c) args)
        as [c' [err |]] eqn:Hexec.
      * destruct (errors_Is err SInternal) eqn:Hint.
        -- rewrite (apply_tx_exec_internal ss sk tx _ _ _ _ _ _ _
                      Hparse Hnonce Hexec Hint).
           now intros [= <-].
        -- rewrite (apply_tx_exec_failed ss sk tx _ _ _ _ _ _ _
                      Hparse Hnonce Hexec Hint).
           discriminate.
      * rewrite (apply_tx_executed ss sk tx _ _ _ _ _ _ Hparse Hnonce Hexec).
        discriminate.
    + rewrite (apply_tx_nonce_mismatch ss sk tx _ _ _ _ _ Hparse Hnonce).
      discriminate.
  - rewrite (apply_tx_parse_failed ss sk tx _ _ _ Hparse). discriminate.
  - rewrite (apply_tx_crash ss sk tx _ _ Hparse). discriminate.
Qed.

Lemma apply_loop_Return (txs : list bytes) ss sk e :
  snd (apply_loop ss sk txs) = Ret (Return e) -> errors_Is e SInternal = true.
Proof.
  revert ss sk. induction txs as [| tx rest IH]; intros ss sk; [discriminate |].
  intros H. simpl in H.
  apply snd_bind_inv in H as [[ss1 sk1 | err] [Htx Hrest]].
  - exact (IH _ _ Hrest).
  - injection Hrest as ->. exact (apply_tx_Return _ _ _ _ Htx).
Qed.

(** X12. Once the store transaction is open, every error [Apply] returns
    wraps [ErrInternal]: it is an internal error of an [Exec], or the
    failure of a write or of the commit wrapped by [Apply]. No error of
    parsing, of a nonce check or of any other execution failure makes
    [Apply] return an error. *)
Theorem Apply_returns_internal_errors_only vm lid (txs : list bytes) e :
  begin_fault (db vm) = None ->
  snd (fst (Apply vm lid txs)) = Ret (Err e) ->
  errors_Is e SInternal = true.
Proof.
  intros Hb. rewrite (Apply_unfold _ _ _ Hb). cbn [fst snd].
  rewrite snd_bind_fst.
  destruct (snd (apply_loop (NewStagedState (Tx_Latest (opened vm))) [] txs))
    as [s | msg] eqn:Hloop.
  2: { now rewrite (Apply_body_crash _ _ _ _ Hloop). }
  destruct (Apply_body_after_loop _ lid _ _ Hloop) as [-> _].
  destruct (Apply_flush_cases (opened vm) lid txs s)
    as (log & r & odb & -> & Hcases).
  cbn [fst snd]. intros [= ->]. destruct s as [ss sk | err].
  - destruct Hcases as [(err & [= ->] & _) | ([=] & _)]. reflexivity.
  - destruct Hcases as [[= ->] _]. exact (apply_loop_Return _ _ _ _ Hloop).
Qed.

(** X13. [Apply] is all or nothing: whenever it does not return a skipped
    list, because it returns an error or because parsing panics, the
    database is exactly as it was before the call. *)
Theorem Apply_failure_keeps_the_database vm lid (txs : list bytes) :
  (forall skipped, snd (fst (Apply vm lid txs)) <> Ret (Ok skipped)) ->
  snd (Apply vm lid txs) = vm.
Proof.
  intros H. destruct (Apply_atomic vm lid txs) as [[sk Hsk] | Hvm];
    [now apply H in Hsk | exact Hvm].
Qed.

Lemma apply_tx_skipped ss sk (tx : bytes) :
  is_skipped (verdict_of ss tx) = true ->
  snd (apply_tx ss sk tx) = Ret (Next ss (sk ++ [tx])).
Proof.
  unfold verdict_of.
  destruct (parse (StagedState_Get ss) tx)
    as [log [[[[[hdr c] args] | err] dec] | msg]] eqn:Hparse; simpl.
  - destruct (NextNonce (CtxAccount c) =? Counter (HNonce (CtxHeader c)))
      eqn:Hnonce.
    + now destruct (snd (Handler_Exec (Handler c) c (Method c) args)).
    + intros _.
      now rewrite (apply_tx_nonce_mismatch ss sk tx _ _ _ _ _ Hparse Hnonce).
  - intros _. now rewrite (apply_tx_parse_failed ss sk tx _ _ _ Hparse).
  - discriminate.
Qed.

Lemma apply_loop_all_skipped (txs : list bytes) ss sk :
  Forall (fun tx => is_skipped (verdict_of ss tx) = true) txs ->
  snd (apply_loop ss sk txs) = Ret (Next ss (sk ++ txs)).
Proof.
  revert sk. induction txs as [| tx rest IH]; intros sk Hall.
  - simpl. now rewrite app_nil_r.
  - apply Forall_cons in Hall as [Htx Hrest].
    rewrite (apply_loop_cons_next ss sk tx rest ss (sk ++ [tx]))
      by now apply apply_tx_skipped.
    rewrite (IH _ Hrest). now rewrite <- app_assoc.
Qed.

(** X14. A batch in which every transaction fails parsing or the nonce
    check against the stored accounts (the empty batch among them) is
    returned whole as the skipped list, and leaves the rows of the
    database as they were, provided the store lets the transaction begin
    and commit. *)
Theorem Apply_of_rejected_batch vm lid (txs : list bytes) :
  begin_fault (db vm) = None ->
  commit_fault (db vm) = None ->
  Forall (fun tx =>
            is_skipped (verdict_of (NewStagedState (Tx_Latest (opened vm))) tx)
            = true) txs ->
  snd (fst (Apply vm lid txs)) = Ret (Ok txs) /\
  rows (db (snd (Apply vm lid txs))) = rows (db vm).
Proof.
  intros Hb Hc Hall. rewrite (Apply_unfold _ _ _ Hb). cbn [fst snd].
  rewrite snd_bind_fst, after_release_committed.
  pose proof (apply_loop_all_skipped txs _ [] Hall) as Hloop.
  destruct (Apply_body_after_loop _ lid _ _ Hloop) as [-> ->].
  unfold committed. cbn. unfold Tx_Commit. cbn. rewrite Hc. cbn. auto.
Qed.

End MoreEngine.

(** *** More on genesis *)

Lemma genesis_loop_failing_write pre a post tx e :
  Forall (fun x => write_fault (tx_db tx) x = None) pre ->
  write_fault (tx_db tx) a = Some e ->
  genesis_loop tx (pre ++ a :: post) =
  (map (fun x => {| lvl := Info; text := "genesis account";
                    fields := [FAccount x] |}) (pre ++ [a]),
   Ret (Some (Wrapf "inserting genesis account %w" [] e), None)).
Proof.
  revert tx. induction pre as [| x pre IH]; intros tx Hpre Ha.
  - cbn [app genesis_loop]. rewrite bind_emit. unfold accounts_Update.
    now rewrite Ha.
  - apply Forall_cons in Hpre as [Hx Hpre].
    cbn [app genesis_loop]. rewrite bind_emit. unfold accounts_Update.
    rewrite Hx.
    now rewrite (IH {| tx_db := tx_db tx; pending := pending tx ++ [x] |}
                   Hpre Ha).
Qed.

(** X15. [ApplyGenesis] stops at the first record whose write fails: it
    returns "inserting genesis account" wrapping the store's error (which
    [errors.Is] still sees), has logged the records up to and including
    that one and none of the later ones, and leaves the database as it
    was, the records written before the failure included. *)
Theorem ApplyGenesis_stops_at_the_first_failing_write vm pre a post e :
  begin_fault (db vm) = None ->
  Forall (fun x => write_fault (db vm) x = None) pre ->
  write_fault (db vm) a = Some e ->
  ApplyGenesis vm (pre ++ a :: post) =
  ((map (fun x => {| lvl := Info; text := "genesis account";
                     fields := [FAccount x] |}) (pre ++ [a]),
    Ret (Some (Wrapf "inserting genesis account %w" [] e))),
   vm) /\
  (forall t, errors_Is (Wrapf "inserting genesis account %w" [] e) t
             = errors_Is e t).
Proof.
  intros Hb Hpre Ha. split; [| reflexivity].
  unfold ApplyGenesis, Database_Tx. rewrite Hb.
  rewrite (genesis_loop_failing_write pre a post
             {| tx_db := db vm; pending := [] |} e Hpre Ha).
  unfold after_release. cbn. now rewrite app_nil_r.
Qed.

(** X16. [GetNonce] after a successful [ApplyGenesis] of records with
    pairwise distinct addresses: for the address of a given record it
    returns that record's next nonce, and for every other address what it
    returned before. *)
Theorem GetNonce_after_ApplyGenesis vm genesis :
  NoDup (map Addr genesis) ->
  snd (fst (ApplyGenesis vm genesis)) = Ret None ->
  (forall a, a ∈ genesis -> read_fault (db vm) (Addr a) = None ->
     GetNonce (snd (ApplyGenesis vm genesis)) (Addr a)
     = Ok {| Counter := NextNonce a |}) /\
  (forall k, k ∉ map Addr genesis ->
     GetNonce (snd (ApplyGenesis vm genesis)) k = GetNonce vm k).
Proof.
  intros Hnd. unfold ApplyGenesis, Database_Tx.
  destruct (begin_fault (db vm)) as [err |] eqn:Hb; [discriminate 1 |].
  cbn [fst snd]. rewrite snd_bind_fst.
  destruct (genesis_loop_cases genesis {| tx_db := db vm; pending := [] |})
    as [log [(Hall & Hc & Hrun) | (Hnot & err & Hrun)]];
    unfold after_release; rewrite Hrun; cbn [fst snd tx_db]; [| discriminate 1].
  intros _. unfold GetNonce, Database_Latest, Latest_in. cbn. split.
  - intros a Ha Hr. rewrite Hr.
    now rewrite (foldl_write_row_lookup genesis _ a Hnd Ha).
  - intros k Hk. now rewrite (foldl_write_row_other genesis _ k Hk).
Qed.

(** *** LayerID on the wire *)


(** *** The added properties on concrete inputs *)

Lemma socket_is_closed_at_most_once_witness :
  exists answers c' tr',
    @Net.do_calls _ _ Trial.socket Trial.calls Trial.established []
    = Ret (answers, c', tr') /\
    Net.closings tr' = (if Net.closed c' then 1 else 0)%nat /\
    (Net.publications tr' <= Net.closings tr')%nat.
Proof.
  pose (r := @Net.do_calls _ _ Trial.socket Trial.calls Trial.established []).
  assert (Hr : @Net.do_calls _ _ Trial.socket Trial.calls Trial.established []
               = r) by reflexivity.
  vm_compute in r. subst r. eexists _, _, _. split; [exact Hr |].
  exact (@socket_is_closed_at_most_once _ _ Trial.socket Trial.calls
           Trial.established [] _ _ _ eq_refl eq_refl eq_refl Hr).
Defined.

Lemma closed_connection_is_inert_witness :
  exists c',
    @Net.do_calls _ _ Trial.socket Trial.calls
      (Net.set_closed Trial.established) []
    = Ret (map Net.answer_when_closed Trial.calls, c', []) /\
    Net.closed c' = true.
Proof.
  exact (@closed_connection_is_inert _ _ Trial.socket Trial.calls
           (Net.set_closed Trial.established) [] eq_refl).
Defined.

Lemma SendNow_error_leaves_closed_witness :
  exists e c' tr',
    @Net.SendNow _ _ Trial.socket Trial.established
      [Net.WriteRecord Trial.m1; Net.WriteRecord Trial.m2] Trial.m3
    = Ret (Some e, c', tr') /\
    Net.closed c' = true /\
    Net.written tr' = [Trial.m1; Trial.m2; Trial.m3].
Proof.
  pose (r := @Net.SendNow _ _ Trial.socket Trial.established
               [Net.WriteRecord Trial.m1; Net.WriteRecord Trial.m2] Trial.m3).
  assert (Hr : @Net.SendNow _ _ Trial.socket Trial.established
                 [Net.WriteRecord Trial.m1; Net.WriteRecord Trial.m2] Trial.m3
               = r) by reflexivity.
  vm_compute in r. subst r. eexists _, _, _. split; [exact Hr |].
  exact (@SendNow_error_leaves_closed _ _ Trial.socket _ _ _ _ _ _ Hr).
Defined.

Lemma wire_carries_the_acknowledged_witness :
  exists answers c' tr' tail,
    @Net.do_calls _ _ Trial.socket Trial.calls Trial.established []
    = Ret (answers, c', tr') /\
    Net.acknowledged Trial.calls answers = [Trial.m1; Trial.m2] /\
    Net.written tr' = Net.written [] ++ Net.acknowledged Trial.calls answers ++ tail /\
    (length tail <= 1)%nat.
Proof.
  pose (r := @Net.do_calls _ _ Trial.socket Trial.calls Trial.established []).
  assert (Hr : @Net.do_calls _ _ Trial.socket Trial.calls Trial.established []
               = r) by reflexivity.
  vm_compute in r. subst r.
  destruct (@wire_carries_the_acknowledged _ _ Trial.socket _ _ _ _ _ _ Hr)
    as (tail & H1 & H2 & _).
  eexists _, _, _, tail. split; [exact Hr |]. split; [reflexivity |].
  split; [exact H1 | exact H2].
Defined.

Lemma setupIncoming_outcomes_witness :
  exists c' tr',
    @Net.setupIncoming _ _ Trial.socket Trial.incoming []
      (Net.Arrived Trial.m3 None)
    = Ret (None, c', tr') /\
    Net.session Trial.incoming = None /\
    @Net.HandlePreSessionIncomingMessage _ _ Trial.socket [] Trial.incoming
      Trial.m3 = (None, c').
Proof.
  pose (r := @Net.setupIncoming _ _ Trial.socket Trial.incoming []
               (Net.Arrived Trial.m3 None)).
  assert (Hr : @Net.setupIncoming _ _ Trial.socket Trial.incoming []
                 (Net.Arrived Trial.m3 None) = r) by reflexivity.
  vm_compute in r. subst r.
  destruct (@setupIncoming_outcomes _ _ Trial.socket _ _ _ _ _ _ Hr)
    as (msg & Ha & Hs & _ & Hh).
  injection Ha as <-.
  eexists _, _. split; [exact Hr |]. split; [exact Hs | exact Hh].
Defined.


Lemma sendRoutine_stops_at_first_failure_witness :
  exists answers c' tr',
    @Net.sendRoutine _ _ Trial.socket Trial.established []
      [Trial.m1; Trial.m2; Trial.m3; Trial.m1]
    = Ret (answers, c', tr') /\
    exists k e,
      (k < 4)%nat /\ answers = replicate k None ++ [Some e] /\
      Net.closed c' = true.
Proof.
  pose (r := @Net.sendRoutine _ _ Trial.socket Trial.established []
               [Trial.m1; Trial.m2; Trial.m3; Trial.m1]).
  assert (Hr : @Net.sendRoutine _ _ Trial.socket Trial.established []
                 [Trial.m1; Trial.m2; Trial.m3; Trial.m1] = r) by reflexivity.
  vm_compute in r. subst r.
  destruct (@sendRoutine_stops_at_first_failure _ _ Trial.socket _ _ _ _ _ _ Hr)
    as [(Ha & _) | (k & e & Hk & Ha & Hc & _)]; [discriminate Ha |].
  eexists _, _, _. split; [exact Hr |]. exists k, e. auto.
Defined.

Lemma one_byte_error (d : Decoder) e d' :
  one_byte d = (Err e, d') -> errors_Is e SInternal = false.
Proof. destruct d; [now intros [= <- <-] | discriminate]. Qed.

Lemma wallet_Parse_error h (c : ctx_t) m (d : Decoder) e d' :
  wallet_Parse h c m d = (Err e, d') -> errors_Is e SInternal = false.
Proof.
  unfold wallet_Parse.
  destruct (one_byte d) as [[n | e1] d1] eqn:H1.
  2: { intros [= <- <-]. exact (one_byte_error _ _ _ H1). }
  destruct (m =? 1); [| discriminate].
  destruct (one_byte d1) as [[to | e2] d2] eqn:H2.
  2: { intros [= <- <-]. exact (one_byte_error _ _ _ H2). }
  destruct (one_byte d2) as [[amt | e3] d3] eqn:H3; [discriminate |].
  intros [= <- <-]. exact (one_byte_error _ _ _ H3).
Qed.

Lemma parse_adds_no_classification_witness :
  exists log e d',
    parse (Database_Latest (db vm0)) (map byte [0; 10; 1; 5]) = (log, Ret (Err e, d')) /\
    errors_Is e SInternal = false.
Proof.
  pose (r := parse (Database_Latest (db vm0)) (map byte [0; 10; 1; 5])).
  assert (Hr : parse (Database_Latest (db vm0)) (map byte [0; 10; 1; 5]) = r)
    by reflexivity.
  vm_compute in r. subst r. eexists _, _, _. split; [exact Hr |].
  refine (parse_adds_no_classification SInternal (Database_Latest (db vm0))
            (map byte [0; 10; 1; 5]) _ _ _
            one_byte_error one_byte_error _ wallet_Parse_error _ _ Hr).
  - intros a e0. discriminate.
  - intros h m a st e0. discriminate.
  - intros tp m a e0. discriminate.
Defined.

Lemma parse_accepts_registered_templates_only_witness :
  exists log hdr c args d',
    parse (Database_Latest (db vm0)) (spend_tx 10 5 11 30)
    = (log, Ret (Ok (hdr, c, args), d')) /\
    registry_Get 1 = Some (Handler c) /\
    Template (CtxAccount c) = Some 1 /\
    Principal hdr = 10.
Proof.
  pose (r := parse (Database_Latest (db vm0)) (spend_tx 10 5 11 30)).
  assert (Hr : parse (Database_Latest (db vm0)) (spend_tx 10 5 11 30) = r)
    by reflexivity.
  vm_compute in r. subst r.
  destruct (parse_accepts_registered_templates_only _ _ _ _ _ _ _ Hr)
    as (_ & Hp & _ & _).
  eexists _, _, _, _, _. split; [exact Hr |].
  split; [reflexivity |]. split; [reflexivity | exact Hp].
Defined.

Lemma parse_header_and_context_header_witness :
  exists log hdr c args d',
    parse (Database_Latest (db vm0)) (spend_tx 10 5 11 30)
    = (log, Ret (Ok (hdr, c, args), d')) /\
    hdr = set_MaxSpend (MaxSpend hdr) (CtxHeader c) /\
    MaxSpend hdr = 30 /\
    MaxSpend (CtxHeader c) = 0.
Proof.
  pose (r := parse (Database_Latest (db vm0)) (spend_tx 10 5 11 30)).
  assert (Hr : parse (Database_Latest (db vm0)) (spend_tx 10 5 11 30) = r)
    by reflexivity.
  vm_compute in r. subst r.
  destruct (parse_header_and_context_header _ _ _ _ _ _ _ Hr)
    as (_ & _ & _ & Hh & _).
  eexists _, _, _, _, _. split; [exact Hr |].
  split; [exact Hh |]. split; reflexivity.
Defined.

Lemma Verify_after_Parse_witness :
  exists log hdr r',
    Request_Parse (request vm0 (spend_tx 10 5 11 30)) = (log, Ret (Ok hdr, r')) /\
    Request_Verify r' = Ret true.
Proof.
  pose (r := Request_Parse (request vm0 (spend_tx 10 5 11 30))).
  assert (Hr : Request_Parse (request vm0 (spend_tx 10 5 11 30)) = r)
    by reflexivity.
  vm_compute in r. subst r.
  destruct (Verify_after_Parse _ _ _ _ Hr) as (_ & (c & tp & _ & _ & Hv) & _).
  eexists _, _, _. split; [exact Hr |]. exact Hv.
Defined.

Lemma Apply_returns_internal_errors_only_witness :
  snd (fst (Apply vm0 layer7 [fault_tx 10 5]))
  = Ret (Err (Wrapf "%w: out of resources" [] ErrInternal)) /\
  errors_Is (Wrapf "%w: out of resources" [] ErrInternal) SInternal = true.
Proof.
  assert (H : snd (fst (Apply vm0 layer7 [fault_tx 10 5]))
              = Ret (Err (Wrapf "%w: out of resources" [] ErrInternal)))
    by (vm_compute; reflexivity).
  split; [exact H |].
  exact (Apply_returns_internal_errors_only vm0 layer7 _ _ eq_refl H).
Defined.

Lemma Apply_failure_keeps_the_database_witness :
  snd (fst (Apply fresh_vm layer7 [spawn_tx 21 1 0; spawn_tx 20 2 0]))
  = Panic nil_dereference /\
  snd (Apply fresh_vm layer7 [spawn_tx 21 1 0; spawn_tx 20 2 0]) = fresh_vm.
Proof.
  assert (H : snd (fst (Apply fresh_vm layer7 [spawn_tx 21 1 0; spawn_tx 20 2 0]))
              = Panic nil_dereference) by (vm_compute; reflexivity).
  split; [exact H |].
  apply Apply_failure_keeps_the_database.
  intros skipped Hs. rewrite H in Hs. discriminate Hs.
Defined.

Lemma Apply_of_rejected_batch_witness :
  snd (fst (Apply vm0 layer7 [spend_tx 10 4 11 1; map byte [1]]))
  = Ret (Ok [spend_tx 10 4 11 1; map byte [1]]) /\
  rows (db (snd (Apply vm0 layer7 [spend_tx 10 4 11 1; map byte [1]])))
  = rows (db vm0).
Proof.
  apply Apply_of_rejected_batch; [reflexivity | reflexivity |].
  repeat constructor.
Defined.

Lemma ApplyGenesis_stops_at_the_first_failing_write_witness :
  snd (fst (ApplyGenesis {| db := Trial.picky |}
              ([wallet_account 10 100 5] ++ wallet_account 13 1 0
                 :: [wallet_account 11 0 0])))
  = Ret (Some (Wrapf "inserting genesis account %w" []
                 (Errorf "constraint failed" []))) /\
  snd (ApplyGenesis {| db := Trial.picky |}
         ([wallet_account 10 100 5] ++ wallet_account 13 1 0
            :: [wallet_account 11 0 0]))
  = {| db := Trial.picky |}.
Proof.
  assert (Hpre : Forall (fun x => write_fault Trial.picky x = None)
                   [wallet_account 10 100 5]) by (repeat constructor).
  destruct (ApplyGenesis_stops_at_the_first_failing_write
              {| db := Trial.picky |} [wallet_account 10 100 5]
              (wallet_account 13 1 0) [wallet_account 11 0 0]
              (Errorf "constraint failed" []) eq_refl Hpre eq_refl) as [H _].
  rewrite H. split; reflexivity.
Defined.

Lemma GetNonce_after_ApplyGenesis_witness :
  GetNonce (snd (ApplyGenesis fresh_vm
                   [wallet_account 10 100 5; wallet_account 11 0 3]))
    (Addr (wallet_account 11 0 3))
  = Ok {| Counter := 3 |}.
Proof.
  assert (Hnd : NoDup (map Addr [wallet_account 10 100 5; wallet_account 11 0 3])).
  { cbn. apply NoDup_cons. split.
    - intros H. apply elem_of_cons in H as [H | H];
        [discriminate H | now apply elem_of_nil in H].
    - apply NoDup_singleton. }
  assert (Hok : snd (fst (ApplyGenesis fresh_vm
                            [wallet_account 10 100 5; wallet_account 11 0 3]))
                = Ret None) by (vm_compute; reflexivity).
  destruct (GetNonce_after_ApplyGenesis fresh_vm _ Hnd Hok) as [H _].
  apply (H (wallet_account 11 0 3)); [| reflexivity].
  apply elem_of_cons. right. apply elem_of_cons. now left.
Defined.

